(** * libsteg: least-significant-bit steganography on raster images

    A shallow embedding of [steg.go] (package [libsteg]) and the
    verification of its bit-packing codec: serialisation of a secret into a
    sentinel-terminated bit stream, the pixel/channel traversal that writes
    and reads the low bits, and the sentinel scan that delimits the payload.

    Layout of the development:
    - [Module Go]: the parts of the Go language, runtime and standard
      library that [steg.go] relies on (fixed-width integers, slices with
      capacity, UTF-8 iteration over strings, [fmt], [strconv], [strings],
      [image], [image/color], [image/draw]);
    - the functions of [steg.go], under their own names;
    - specification-level definitions and the theorems. *)

From Stdlib Require Import Strings.String Strings.Byte.
From Stdlib Require Import ZArith List Lia Bool PeanoNat.
Import ListNotations.

Local Open Scope Z_scope.

(* ================================================================== *)
(** * The Go side: language, runtime and standard library             *)
(* ================================================================== *)

Module Go.

(** ** Fixed-width integers *)

(** [uint8] values are bytes; [u8] is the numeric value of a byte and
    [to_uint8] the conversion [uint8(z)], which keeps the low 8 bits. *)
Definition u8 (b : byte) : Z := Z.of_N (Byte.to_N b).

Definition to_uint8 (z : Z) : byte :=
  match Byte.of_N (Z.to_N (z mod 256)) with
  | Some b => b
  | None => x00
  end.

(** [int] is 64 bits wide: the result of an arithmetic operation is taken
    modulo 2^64 into the signed range. *)
Definition to_int (z : Z) : Z := (z + 2 ^ 63) mod 2 ^ 64 - 2 ^ 63.

(** ** Strings

    A Go string is a sequence of bytes. *)
Definition gostring := list byte.

Definition str (s : string) : gostring := list_byte_of_string s.

(** *** [for _, c := range s]: iteration over the runes of a string

    This follows [runtime.decoderune]: bytes below 0x80 are their own rune;
    a well-formed multi-byte UTF-8 sequence yields its code point; anything
    else yields [RuneError] and advances by one byte. *)
Definition RuneError : Z := 0xFFFD.

Definition is_cont (b : byte) : bool := (0x80 <=? u8 b) && (u8 b <=? 0xBF).

Definition rune2 (c0 : Z) (b1 : byte) : Z :=
  Z.lor (Z.shiftl (Z.land c0 0x1F) 6) (Z.land (u8 b1) 0x3F).

Definition rune3 (c0 : Z) (b1 b2 : byte) : Z :=
  Z.lor (Z.lor (Z.shiftl (Z.land c0 0x0F) 12)
               (Z.shiftl (Z.land (u8 b1) 0x3F) 6))
        (Z.land (u8 b2) 0x3F).

Definition rune4 (c0 : Z) (b1 b2 b3 : byte) : Z :=
  Z.lor (Z.lor (Z.lor (Z.shiftl (Z.land c0 0x07) 18)
                      (Z.shiftl (Z.land (u8 b1) 0x3F) 12))
               (Z.shiftl (Z.land (u8 b2) 0x3F) 6))
        (Z.land (u8 b3) 0x3F).

Fixpoint range_string (s : gostring) : list Z :=
  match s with
  | [] => []
  | b0 :: t0 =>
      let c0 := u8 b0 in
      let bad := RuneError :: range_string t0 in
      if c0 <? 0x80 then c0 :: range_string t0
      else if (0xC0 <=? c0) && (c0 <? 0xE0) then
        match t0 with
        | b1 :: t1 =>
            let r := rune2 c0 b1 in
            if is_cont b1 && (0x7F <? r) then r :: range_string t1 else bad
        | _ => bad
        end
      else if (0xE0 <=? c0) && (c0 <? 0xF0) then
        match t0 with
        | b1 :: t1 =>
            match t1 with
            | b2 :: t2 =>
                let r := rune3 c0 b1 b2 in
                if is_cont b1 && is_cont b2 && (0x7FF <? r)
                   && negb ((0xD800 <=? r) && (r <=? 0xDFFF))
                then r :: range_string t2 else bad
            | _ => bad
            end
        | _ => bad
        end
      else if (0xF0 <=? c0) && (c0 <? 0xF8) then
        match t0 with
        | b1 :: t1 =>
            match t1 with
            | b2 :: t2 =>
                match t2 with
                | b3 :: t3 =>
                    let r := rune4 c0 b1 b2 b3 in
                    if is_cont b1 && is_cont b2 && is_cont b3
                       && (0xFFFF <? r) && (r <=? 0x10FFFF)
                    then r :: range_string t3 else bad
                | _ => bad
                end
            | _ => bad
            end
        | _ => bad
        end
      else bad
  end.

(** *** [string(i)] for an integer [i]: the UTF-8 encoding of the rune
    ([runtime.intstring] and [runtime.encoderune]). *)
Definition string_of_int (i : Z) : gostring :=
  let r := if (i <? 0) || (0x10FFFF <? i) || ((0xD800 <=? i) && (i <=? 0xDFFF))
           then RuneError else i in
  if r <=? 0x7F then [to_uint8 r]
  else if r <=? 0x7FF then
    [to_uint8 (Z.lor 0xC0 (Z.shiftr r 6)); to_uint8 (Z.lor 0x80 (Z.land r 0x3F))]
  else if r <=? 0xFFFF then
    [to_uint8 (Z.lor 0xE0 (Z.shiftr r 12));
     to_uint8 (Z.lor 0x80 (Z.land (Z.shiftr r 6) 0x3F));
     to_uint8 (Z.lor 0x80 (Z.land r 0x3F))]
  else
    [to_uint8 (Z.lor 0xF0 (Z.shiftr r 18));
     to_uint8 (Z.lor 0x80 (Z.land (Z.shiftr r 12) 0x3F));
     to_uint8 (Z.lor 0x80 (Z.land (Z.shiftr r 6) 0x3F));
     to_uint8 (Z.lor 0x80 (Z.land r 0x3F))].

(** *** [fmt.Sprintf("%.8b", c)]: the binary numeral of [c], most
    significant digit first, left-padded with zeros to at least 8 digits. *)
Definition digit0 : byte := x30.
Definition digit1 : byte := x31.

Fixpoint binary_rev (p : positive) : list byte :=
  match p with
  | xH => [digit1]
  | xO q => digit0 :: binary_rev q
  | xI q => digit1 :: binary_rev q
  end.

Definition pad8 (d : list byte) : list byte :=
  repeat digit0 (8 - length d) ++ d.

Definition fmt_08b (c : Z) : gostring :=
  match c with
  | Z0 => pad8 []
  | Zpos p => pad8 (rev (binary_rev p))
  | Zneg p => x2d :: pad8 (rev (binary_rev p))
  end.

(** *** [strings.Split(s, "")]: explodes [s] into its characters.  The only
    call site passes a string of ASCII digits, for which every character is
    one byte. *)
Definition strings_Split_chars (s : gostring) : list gostring :=
  map (fun c => [c]) s.

(** *** [strconv.Atoi]: an optional sign followed by decimal digits. *)
Definition digit_val (c : byte) : option Z :=
  if (0x30 <=? u8 c) && (u8 c <=? 0x39) then Some (u8 c - 0x30) else None.

Fixpoint atoi_digits (acc : Z) (s : gostring) : option Z :=
  match s with
  | [] => Some acc
  | c :: t =>
      match digit_val c with
      | Some d => atoi_digits (10 * acc + d) t
      | None => None
      end
  end.

Definition strconv_Atoi (s : gostring) : option Z :=
  match s with
  | [] => None
  | c :: t =>
      if Byte.eqb c x2b then
        match t with [] => None | _ => atoi_digits 0 t end
      else if Byte.eqb c x2d then
        match t with [] => None | _ => option_map Z.opp (atoi_digits 0 t) end
      else atoi_digits 0 s
  end.

(** *** [strings.Index], [strings.Contains] and the first field of
    [strings.Split(s, sep)] for a non-empty separator. *)
Fixpoint has_prefix (sep s : gostring) : bool :=
  match sep, s with
  | [], _ => true
  | _ :: _, [] => false
  | a :: sep', b :: s' => Byte.eqb a b && has_prefix sep' s'
  end.

Fixpoint strings_Index (s sep : gostring) : option nat :=
  if has_prefix sep s then Some O
  else match s with
       | [] => None
       | _ :: t => option_map S (strings_Index t sep)
       end.

Definition strings_Contains (s sep : gostring) : bool :=
  match strings_Index s sep with Some _ => true | None => false end.

Definition strings_Split_0 (s sep : gostring) : gostring :=
  match strings_Index s sep with
  | Some k => firstn k s
  | None => s
  end.

(** ** Slices of [int]

    A slice has a length and a capacity.  The elements of the backing array
    between the length and the capacity are zero: [make] and the growth
    step of [append] both hand out zeroed memory, and [append] writes only
    below the new length. *)
Record slice := mkSlice { elts : list Z; cap : nat }.

Definition len (s : slice) : nat := length (elts s).

Definition backing (s : slice) : list Z :=
  elts s ++ repeat 0 (cap s - len s).

(** [s[lo:hi]] is legal up to the capacity, not only up to the length. *)
Definition slice_expr (s : slice) (lo hi : nat) : option (list Z) :=
  if (lo <=? hi)%nat && (hi <=? cap s)%nat
  then Some (firstn (hi - lo) (skipn lo (backing s)))
  else None.

Section Append.
(** The capacity chosen when [append] has to grow a slice is a matter of
    the runtime (amortised doubling, rounded to allocation size
    classes); the language only promises that it is sufficient. *)
Variable growcap : nat -> nat -> nat.

Definition append (s : slice) (xs : list Z) : slice :=
  let n := (len s + length xs)%nat in
  {| elts := elts s ++ xs;
     cap := if (n <=? cap s)%nat then cap s else growcap (cap s) n |}.
End Append.

(** ** Package [image/color] *)
Module color.
Record RGBA := mkRGBA { R : byte; G : byte; B : byte; A : byte }.

(** The method [RGBA()] of [color.RGBA]: each 8-bit channel [c] is
    widened to 16 bits as [c | c << 8]. *)
Definition widen (c : byte) : Z := Z.lor (u8 c) (Z.shiftl (u8 c) 8).

Definition RGBA_RGBA (c : RGBA) : Z * Z * Z * Z :=
  (widen (R c), widen (G c), widen (B c), widen (A c)).

Definition zero : RGBA := mkRGBA x00 x00 x00 x00.
End color.

(** ** Package [image] *)
Module image.
Record Point := mkPoint { X : Z; Y : Z }.
Record Rectangle := mkRect { Min : Point; Max : Point }.

Definition In (x y : Z) (r : Rectangle) : bool :=
  (X (Min r) <=? x) && (x <? X (Max r)) &&
  (Y (Min r) <=? y) && (y <? Y (Max r)).

Definition Dx (r : Rectangle) : Z := X (Max r) - X (Min r).
Definition Dy (r : Rectangle) : Z := Y (Max r) - Y (Min r).

(** The interface [image.Image], with a colour represented by what its
    method [RGBA()] returns: alpha-premultiplied 16-bit channels. *)
Record Image := mkImage {
  Bounds : Rectangle;
  At : Z -> Z -> Z * Z * Z * Z
}.

(** [*image.RGBA]: a grid of 8-bit colours over a rectangle. *)
Record RGBA := mkRGBA {
  Rect : Rectangle;
  Pix : Z -> Z -> color.RGBA
}.

(** [At] answers the zero colour outside the rectangle, and [SetRGBA]
    does nothing there. *)
Definition RGBA_At (m : RGBA) (x y : Z) : color.RGBA :=
  if In x y (Rect m) then Pix m x y else color.zero.

Definition RGBA_SetRGBA (m : RGBA) (x y : Z) (c : color.RGBA) : RGBA :=
  if In x y (Rect m)
  then {| Rect := Rect m;
          Pix := fun x' y' =>
                   if (x' =? x) && (y' =? y) then c else Pix m x' y' |}
  else m.

(** An [*image.RGBA] seen through the interface [image.Image]. *)
Definition RGBA_Image (m : RGBA) : Image :=
  {| Bounds := Rect m;
     At := fun x y => color.RGBA_RGBA (RGBA_At m x y) |}.

(** [image.NewRGBA(r)] followed by
    [draw.Draw(dst, dst.Bounds(), src, src.Bounds().Min, draw.Over)]:
    the destination starts transparent black, so composing the source
    over it keeps the high byte of each 16-bit source channel. *)
Definition draw_Over_new (src : Image) : RGBA :=
  {| Rect := Bounds src;
     Pix := fun x y =>
              let '(r, g, b, a) := At src x y in
              color.mkRGBA (to_uint8 (Z.shiftr r 8)) (to_uint8 (Z.shiftr g 8))
                           (to_uint8 (Z.shiftr b 8)) (to_uint8 (Z.shiftr a 8)) |}.
End image.

End Go.

Import Go.

(* ================================================================== *)
(** * steg.go                                                         *)
(* ================================================================== *)

(** [stopStegConst] defines where the implanted message ends. *)
Definition stopStegConst : gostring := str "##STOP_STEG##".

(** The errors the package creates with [errors.New], the error of
    [strconv.Atoi] (its message without the quoted input), and the
    run-time panics its code can raise. *)
Inductive error :=
| NoImageLoaded
| CapacityExceeded
| SentinelNotFound
| AtoiSyntax.

Definition error_message (e : error) : string :=
  match e with
  | NoImageLoaded => "no image loaded"
  | CapacityExceeded => "not enough pixels to hide secret"
  | SentinelNotFound => "error finding embedded secret string"
  | AtoiSyntax => "strconv.Atoi: parsing: invalid syntax"
  end.

Inductive panic :=
| NilDereference
| MakeSliceCap
| SliceBounds.

Inductive result (T : Type) :=
| Ok (v : T)
| Err (e : error)
| Panic (p : panic).

Arguments Ok {T} v.
Arguments Err {T} e.
Arguments Panic {T} p.

(** [StegImage] holds all vars needed for image manipulation.  [imgLoaded]
    is an interface value and [newImg] a pointer; both may be nil. *)
Record StegImage := mkStegImage {
  imgLoaded : option image.Image;
  imgType : gostring;
  secretBits : list Z;
  newImg : option image.RGBA
}.

Definition set_newImg (s : StegImage) (m : image.RGBA) : StegImage :=
  {| imgLoaded := imgLoaded s; imgType := imgType s;
     secretBits := secretBits s; newImg := Some m |}.

Definition set_secretBits (s : StegImage) (bits : list Z) : StegImage :=
  {| imgLoaded := imgLoaded s; imgType := imgType s;
     secretBits := bits; newImg := newImg s |}.

(** A method with a pointer receiver: it may update the receiver and
    returns a value, an error or panics.  The receiver's state at the point
    of failure is kept. *)
Definition method (T : Type) : Type := StegImage -> StegImage * result T.

Definition ret {T} (v : T) : method T := fun s => (s, Ok v).

Definition bind {T U} (m : method T) (k : T -> method U) : method U :=
  fun s =>
    match m s with
    | (s', Ok v) => k v s'
    | (s', Err e) => (s', Err e)
    | (s', Panic p) => (s', Panic p)
    end.

Notation "m1 ;; m2" := (bind m1 (fun _ => m2))
  (at level 61, right associativity).

(** ** [manipulateLSB] *)
Definition manipulateLSB (i : Z) (bit : Z) : byte :=
  let newI := to_uint8 i in
  if bit =? 0
  then to_uint8 (Z.land (u8 newI) (Z.lnot (Z.shiftl 1 0)))   (* newI &^ (1 << 0) *)
  else to_uint8 (Z.lor (u8 newI) (Z.shiftl 1 0)).            (* newI | (1 << 0) *)

(** ** [stringToBinary] *)
Definition stringToBinary (s : gostring) : gostring :=
  fold_left (fun res c => res ++ fmt_08b c) (range_string s) [].

(** ** [stringsToInts] *)
Fixpoint stringsToInts_from (ints : list Z) (s : list gostring)
  : list Z * option error :=
  match s with
  | [] => (ints, None)
  | i :: rest =>
      match strconv_Atoi i with
      | None => (ints, Some AtoiSyntax)                (* break *)
      | Some j => stringsToInts_from (ints ++ [j]) rest
      end
  end.

Definition stringsToInts (s : list gostring) : list Z * option error :=
  stringsToInts_from [] s.

(** ** [loadSecret] *)
Definition loadSecret (secret : gostring) : method unit :=
  fun s =>
    let secretWordBin := stringToBinary (secret ++ stopStegConst) in
    let secretWordBinList := strings_Split_chars secretWordBin in
    let '(ints, err) := stringsToInts secretWordBinList in
    (set_secretBits s ints,
     match err with None => Ok tt | Some e => Err e end).

(** ** [createMutableImage] *)
Definition createMutableImage : method unit :=
  fun s =>
    match imgLoaded s with
    | None => (s, Err NoImageLoaded)
    | Some img => (set_newImg s (image.draw_Over_new img), Ok tt)
    end.

(** ** [embedSecret]

    The loops [for v := lo; v < hi; v++] do not assign their variable in
    the body, so they run [hi - lo] times (not at all when [hi <= lo]) with
    [v = lo, lo+1, ...]; [break] ends the recursion. *)
Section EmbedLoops.
Variable bits : list Z.                       (* s.secretBits *)

(** The body of the inner loop when [secretIndex < len(s.secretBits)]. *)
Definition embed_pixel (x y : Z) (st : image.RGBA * nat) : image.RGBA * nat :=
  let '(img, secretIndex) := st in
  let '(r, g, b, a) := color.RGBA_RGBA (image.RGBA_At img x y) in
  let newR := manipulateLSB r (nth secretIndex bits 0) in
  let secretIndex := S secretIndex in
  let '(newG, secretIndex) :=
    if (secretIndex <? length bits)%nat
    then (manipulateLSB g (nth secretIndex bits 0), S secretIndex)
    else (to_uint8 g, secretIndex) in
  let '(newB, secretIndex) :=
    if (secretIndex <? length bits)%nat
    then (manipulateLSB b (nth secretIndex bits 0), S secretIndex)
    else (to_uint8 b, secretIndex) in
  (image.RGBA_SetRGBA img x y
     (color.mkRGBA newR newG newB (to_uint8 (a / 0x101))),
   secretIndex).

Fixpoint embed_loop_y (n : nat) (x y : Z) (st : image.RGBA * nat)
  : image.RGBA * nat :=
  match n with
  | O => st
  | S n' =>
      if (snd st <? length bits)%nat
      then embed_loop_y n' x (y + 1) (embed_pixel x y st)
      else st                                                (* break *)
  end.

Fixpoint embed_loop_x (n : nat) (bounds : image.Rectangle) (x : Z)
         (st : image.RGBA * nat) : image.RGBA * nat :=
  match n with
  | O => st
  | S n' =>
      let st' := embed_loop_y (Z.to_nat (image.Y (image.Max bounds)
                                         - image.Y (image.Min bounds)))
                              x (image.Y (image.Min bounds)) st in
      if (length bits <=? snd st')%nat
      then st'                                               (* break *)
      else embed_loop_x n' bounds (x + 1) st'
  end.
End EmbedLoops.

Definition embedSecret : method unit :=
  fun s =>
    match newImg s with
    | None => (s, Panic NilDereference)
    | Some img =>
        let secretIndex := O in
        let bounds := image.Rect img in
        (* Check if we can store the secret message *)
        if Z.of_nat (length (secretBits s))
           >? to_int (to_int (image.X (image.Max bounds)
                              * image.Y (image.Max bounds)) * 3)
        then (s, Err CapacityExceeded)
        else
          let st := embed_loop_x (secretBits s)
                      (Z.to_nat (image.X (image.Max bounds)
                                 - image.X (image.Min bounds)))
                      bounds (image.X (image.Min bounds))
                      (img, secretIndex) in
          (set_newImg s (fst st), Ok tt)
    end.

(** ** [getBitsFromRGB] *)
Definition getBitsFromRGB (values : list Z) : list Z :=
  fold_left (fun bitsOut v =>
               if v mod 2 =? 0 then bitsOut ++ [0] else bitsOut ++ [1])
            values [].

(** ** [getCharFromBits] *)
Fixpoint getCharFromBits_loop (n : nat) (b : nat) (bits : list Z) (tmp : Z) : Z :=
  match n with
  | O => tmp
  | S n' =>
      let v := nth b bits 0 in
      let tmp := if v =? 1
                 then Z.lor tmp (Z.shiftl 1 (7 - Z.of_nat b))   (* Set bit *)
                 else tmp in
      getCharFromBits_loop n' (S b) bits tmp
  end.

Definition getCharFromBits (bits : list Z) : gostring :=
  string_of_int (getCharFromBits_loop 8 0 bits 0).

(** ** [bitsToString]

    [for i := 0; i < len(bits); i += 8] takes [i = 0, 8, 16, ...] below
    [len(bits)], that is [ceil(len(bits) / 8)] iterations. *)
Fixpoint bitsToString_from (n : nat) (bits : slice) (i : nat) (out : gostring)
  : result gostring :=
  match n with
  | O => Ok out
  | S n' =>
      match slice_expr bits i (i + 8) with
      | None => Panic SliceBounds
      | Some batch =>
          bitsToString_from n' bits (i + 8) (out ++ getCharFromBits batch)
      end
  end.

Definition bitsToString (bits : slice) : result gostring :=
  bitsToString_from ((len bits + 7) / 8)%nat bits 0 [].

(** ** [getSecretString] *)
Section Extract.
Variable growcap : nat -> nat -> nat.

Fixpoint getSecretString_loop_y (n : nat) (img : image.Image) (x y : Z)
         (bitsOut : slice) : slice :=
  match n with
  | O => bitsOut
  | S n' =>
      let '(r, g, b, _) := image.At img x y in
      getSecretString_loop_y n' img x (y + 1)
        (append growcap bitsOut (getBitsFromRGB [r; g; b]))
  end.

Fixpoint getSecretString_loop_x (n : nat) (img : image.Image) (x : Z)
         (bitsOut : slice) : slice :=
  match n with
  | O => bitsOut
  | S n' =>
      let bounds := image.Bounds img in
      getSecretString_loop_x n' img (x + 1)
        (getSecretString_loop_y
           (Z.to_nat (image.Y (image.Max bounds)
                      - image.Y (image.Min bounds) + 1))     (* y <= Max.Y *)
           img x (image.Y (image.Min bounds)) bitsOut)
  end.

(** The bits accumulated by the two loops, starting from
    [make([]int, 0, bounds.Max.X*bounds.Max.Y)]. *)
Definition scanBits (img : image.Image) : result slice :=
  let bounds := image.Bounds img in
  let c := to_int (image.X (image.Max bounds) * image.Y (image.Max bounds)) in
  if c <? 0 then Panic MakeSliceCap
  else
    Ok (getSecretString_loop_x
          (Z.to_nat (image.X (image.Max bounds)
                     - image.X (image.Min bounds) + 1))      (* x <= Max.X *)
          img (image.X (image.Min bounds))
          (mkSlice [] (Z.to_nat c))).

Definition getSecretString : method gostring :=
  fun s =>
    match imgLoaded s with
    | None => (s, Panic NilDereference)
    | Some img =>
        match scanBits img with
        | Ok bitsOut =>
            match bitsToString bitsOut with
            | Ok tmp =>
                if strings_Contains tmp stopStegConst
                then (s, Ok (strings_Split_0 tmp stopStegConst))
                else (s, Err SentinelNotFound)
            | Err e => (s, Err e)
            | Panic p => (s, Panic p)
            end
        | Err e => (s, Err e)
        | Panic p => (s, Panic p)
        end
    end.

(** ** [DoStegExtract] retrieves the embedded secret from the loaded image *)
Definition DoStegExtract : method gostring :=
  bind getSecretString (fun secretOut => ret secretOut).
End Extract.

(** ** [DoStegEmbed] embeds the given secret into the loaded image *)
Definition DoStegEmbed (secretIn : gostring) : method unit :=
  createMutableImage ;; loadSecret secretIn ;; embedSecret.

(** ** Loading an image

    [LoadImageFromFile] and [LoadImageFromB64] decode an image with the
    [image] package and store it in a fresh [StegImage]; the decoder is
    outside this development, its result is the argument here. *)
Definition LoadImage (img : image.Image) : StegImage :=
  {| imgLoaded := Some img; imgType := str "png";
     secretBits := []; newImg := None |}.

(** A [StegImage] on which no image was loaded: [var cleanImg StegImage]. *)
Definition emptyStegImage : StegImage :=
  {| imgLoaded := None; imgType := []; secretBits := []; newImg := None |}.

(** The image a second [StegImage] loads after the first one wrote its
    [newImg] out: the container is lossless, so the loaded image shows the
    pixels of [newImg]. *)
Definition reload (s : StegImage) : StegImage :=
  match newImg s with
  | Some m => LoadImage (image.RGBA_Image m)
  | None => emptyStegImage
  end.

(* ================================================================== *)
(** * Specification-level definitions                                *)
(* ================================================================== *)

(** The value a channel takes when its low bit is forced to [bit]: the
    seven high bits [v / 2] are kept and the low bit is 0 when [bit] is 0
    and 1 otherwise. *)
Definition low_bit (bit : Z) : Z := if bit =? 0 then 0 else 1.

Definition force_lsb (v : byte) (bit : Z) : byte :=
  to_uint8 (2 * (u8 v / 2) + low_bit bit).

(** [zrange lo n] is [lo, lo+1, ..., lo+n-1]; [grid xs ys] enumerates the
    pairs with [x] in the outer position and [y] in the inner one. *)
Definition zrange (lo : Z) (n : nat) : list Z :=
  map (fun i => lo + Z.of_nat i) (seq 0 n).

Definition grid (xs ys : list Z) : list (Z * Z) :=
  flat_map (fun x => map (fun y => (x, y)) ys) xs.

Definition minX (b : image.Rectangle) : Z := image.X (image.Min b).
Definition minY (b : image.Rectangle) : Z := image.Y (image.Min b).
Definition maxX (b : image.Rectangle) : Z := image.X (image.Max b).
Definition maxY (b : image.Rectangle) : Z := image.Y (image.Max b).

(** The pixels of the embedding traversal: the upper bounds are excluded. *)
Definition embed_coords (b : image.Rectangle) : list (Z * Z) :=
  grid (zrange (minX b) (Z.to_nat (image.Dx b)))
       (zrange (minY b) (Z.to_nat (image.Dy b))).

(** The pixels of the extraction traversal: the upper bounds are included. *)
Definition scan_coords (b : image.Rectangle) : list (Z * Z) :=
  grid (zrange (minX b) (Z.to_nat (image.Dx b + 1)))
       (zrange (minY b) (Z.to_nat (image.Dy b + 1))).

(** The colour a visited pixel ends up with, given the bits that are left
    when it is reached: red, green and blue take one bit each, in this
    order, while bits remain; alpha takes none. *)
Definition write_channels (c : color.RGBA) (bs : list Z) : color.RGBA :=
  match bs with
  | [] => c
  | b0 :: bs1 =>
      color.mkRGBA
        (force_lsb (color.R c) b0)
        (match bs1 with b1 :: _ => force_lsb (color.G c) b1 | [] => color.G c end)
        (match bs1 with _ :: b2 :: _ => force_lsb (color.B c) b2 | _ => color.B c end)
        (color.A c)
  end.

(** The two nested loops as one walk over a list of pixels that ends at the
    first pixel reached with the bits exhausted. *)
Fixpoint walk (bits : list Z) (cs : list (Z * Z)) (st : image.RGBA * nat)
  : image.RGBA * nat :=
  match cs with
  | [] => st
  | (x, y) :: cs' =>
      if (snd st <? length bits)%nat
      then walk bits cs' (embed_pixel bits x y st)
      else st
  end.

(** The bound [embedSecret] compares the number of bits with:
    [bounds.Max.X * bounds.Max.Y * 3], computed on [int]. *)
Definition capacity_bound (b : image.Rectangle) : Z :=
  to_int (to_int (maxX b * maxY b) * 3).

(** The capacity of a buffer: three channels for each of its
    [width * height] pixels. *)
Definition capacity (b : image.Rectangle) : Z :=
  image.Dx b * image.Dy b * 3.

(** The buffer the embedding loops leave behind. *)
Definition embedded (bits : list Z) (img : image.RGBA) : image.RGBA :=
  fst (walk bits (embed_coords (image.Rect img)) (img, O)).

(** A pixel is visited when the traversal reaches it with bits left. *)
Definition visited (bits : list Z) (b : image.Rectangle) (x y : Z) : Prop :=
  exists k, nth_error (embed_coords b) k = Some (x, y)
            /\ (3 * k < length bits)%nat.

(** ** Bit streams *)

(** The 8 bits of a byte, most significant first. *)
Definition byte_bits (b : byte) : list Z :=
  map (fun k => Z.b2z (Z.testbit (u8 b) k)) [7; 6; 5; 4; 3; 2; 1; 0].

(** The bit stream of a byte sequence. *)
Definition string_bits (s : gostring) : list Z := flat_map byte_bits s.

Definition is_ascii (b : byte) : bool := u8 b <? 0x80.


(** The number whose binary digits, most significant first, are the given
    bits; a bit counts as set when it is 1. *)
Definition msb_value (l : list Z) : Z :=
  fold_left (fun acc b => 2 * acc + (if b =? 1 then 1 else 0)) l 0.

(** Regrouping a bit stream into characters, 8 bits at a time; an
    incomplete last group is dropped. *)
Fixpoint text_of_bits (l : list Z) : gostring :=
  match l with
  | b0 :: b1 :: b2 :: b3 :: b4 :: b5 :: b6 :: b7 :: rest =>
      string_of_int (msb_value [b0; b1; b2; b3; b4; b5; b6; b7])
      ++ text_of_bits rest
  | _ => []
  end.

(** The bit of a channel value: 0 when it is even, 1 when it is odd. *)
Definition parity (v : Z) : Z := if Z.even v then 0 else 1.

(** The three bits read from a pixel: red, green, blue. *)
Definition pixel_bits (c : Z * Z * Z * Z) : list Z :=
  let '(r, g, b, _) := c in [parity r; parity g; parity b].

(** The bits of an image in the order of the extraction traversal. *)
Definition scan_bits (img : image.Image) : list Z :=
  flat_map (fun p => pixel_bits (image.At img (fst p) (snd p)))
           (scan_coords (image.Bounds img)).

(** ** Occurrences of a separator in a text *)
Definition occurs_at (sep s : gostring) (k : nat) : Prop :=
  firstn (length sep) (skipn k s) = sep /\ (k + length sep <= length s)%nat.

Definition first_occurrence (sep s : gostring) (k : nat) : Prop :=
  occurs_at sep s k /\ forall j, (j < k)%nat -> ~ occurs_at sep s j.

(** ** Binary numerals *)

(** The characters ["0"] and ["1"], and the integer each stands for. *)
Definition is_bit_digit (c : byte) : bool :=
  Byte.eqb c digit0 || Byte.eqb c digit1.

Definition digit_bit (c : byte) : Z := u8 c - 0x30.

(** ** Reading the embedded bits back *)

(** The bits the extraction reads from an 8-bit colour. *)
Definition color_bits (c : color.RGBA) : list Z :=
  pixel_bits (color.RGBA_RGBA c).

(** The colours of a run of pixels after embedding a bit stream into them,
    three bits per pixel. *)
Fixpoint embed_colors (cs : list color.RGBA) (bits : list Z) : list color.RGBA :=
  match cs with
  | [] => []
  | c :: cs' => write_channels c bits :: embed_colors cs' (skipn 3 bits)
  end.

Definition is01 (b : Z) : Prop := b = 0 \/ b = 1.


(** ** Buffers and runtimes used in examples *)

Definition rect (x0 y0 x1 y1 : Z) : image.Rectangle :=
  image.mkRect (image.mkPoint x0 y0) (image.mkPoint x1 y1).

Definition opaque_black : Z * Z * Z * Z := (0, 0, 0, 0xffff).

(** An image of one colour, as a decoder hands it over: the zero colour
    outside its bounds. *)
Definition solid (b : image.Rectangle) (c : Z * Z * Z * Z) : image.Image :=
  {| image.Bounds := b;
     image.At := fun x y => if image.In x y b then c else (0, 0, 0, 0) |}.

(** Two growth policies for [append]: to exactly the needed length, and
    doubling. *)
Definition exact_grow (c n : nat) : nat := n.

Definition double_grow (c n : nat) : nat := Nat.max n (2 * c).


(** ** Bit streams of runes *)

(** The bits printed for one rune: its binary digits, at least 8. *)
Definition rune_bits (r : Z) : list Z := map digit_bit (fmt_08b r).

(** * steg_test.go: [checkColourDifference]

    [int8(x - y)] subtracts on [uint8], modulo 256, and reads the result as
    a signed byte.  The result is [None] for [nil] and [Some z] for the
    error that reports the difference [z]. *)
Definition to_int8 (z : Z) : Z := (z + 128) mod 256 - 128.

Definition checkColourDifference (x y : byte) : option Z :=
  let z := to_int8 (u8 (to_uint8 (u8 x - u8 y))) in
  if (z =? 0) || (z =? -1) || (z =? 1) then None else Some z.

(* ================================================================== *)
(** * Bytes and the low bit                                           *)
(* ================================================================== *)

Section Bytes.

Lemma u8_range (b : byte) : 0 <= u8 b < 256.
Proof.
  unfold u8. pose proof (Byte.to_N_bounded b). lia.
Qed.

Lemma to_uint8_u8 (b : byte) : to_uint8 (u8 b) = b.
Proof.
  unfold to_uint8. rewrite Z.mod_small by apply u8_range.
  unfold u8. rewrite N2Z.id, Byte.of_to_N. reflexivity.
Qed.

Lemma u8_to_uint8 (z : Z) : u8 (to_uint8 z) = z mod 256.
Proof.
  unfold to_uint8.
  assert (Hr : 0 <= z mod 256 < 256) by (apply Z.mod_pos_bound; lia).
  destruct (Byte.of_N (Z.to_N (z mod 256))) as [b|] eqn:E.
  - apply Byte.to_of_N in E. unfold u8. rewrite E. lia.
  - apply Byte.of_N_None_iff in E. lia.
Qed.

Lemma u8_inj (a b : byte) : u8 a = u8 b -> a = b.
Proof.
  intros H. rewrite <- (to_uint8_u8 a), <- (to_uint8_u8 b), H. reflexivity.
Qed.

(** Widening a channel to 16 bits multiplies it by [0x101]. *)
Lemma widen_mul (c : byte) : color.widen c = u8 c * 0x101.
Proof. destruct c; reflexivity. Qed.

Lemma to_uint8_widen (c : byte) : to_uint8 (color.widen c) = c.
Proof.
  apply u8_inj. rewrite u8_to_uint8, widen_mul.
  pose proof (u8_range c).
  replace (u8 c * 257) with (u8 c + u8 c * 256) by lia.
  rewrite Z.mod_add by lia. apply Z.mod_small. lia.
Qed.

Lemma to_uint8_widen_div (c : byte) : to_uint8 (color.widen c / 0x101) = c.
Proof.
  rewrite widen_mul, Z.div_mul by lia. apply to_uint8_u8.
Qed.

Lemma widen_parity (c : byte) : color.widen c mod 2 = u8 c mod 2.
Proof.
  rewrite widen_mul.
  replace (u8 c * 257) with (u8 c + (u8 c * 128) * 2) by lia.
  apply Z.mod_add. lia.
Qed.

End Bytes.

Section LowBit.

Lemma clear_bit0 (b : byte) :
  Z.land (u8 b) (Z.lnot (Z.shiftl 1 0)) = 2 * (u8 b / 2).
Proof. destruct b; reflexivity. Qed.

Lemma set_bit0 (b : byte) :
  Z.lor (u8 b) (Z.shiftl 1 0) = 2 * (u8 b / 2) + 1.
Proof. destruct b; reflexivity. Qed.

Lemma manipulateLSB_force (i bit : Z) :
  manipulateLSB i bit = force_lsb (to_uint8 i) bit.
Proof.
  unfold manipulateLSB, force_lsb, low_bit.
  destruct (bit =? 0).
  - rewrite clear_bit0. f_equal. lia.
  - rewrite set_bit0. reflexivity.
Qed.

Lemma manipulateLSB_widen (c : byte) (bit : Z) :
  manipulateLSB (color.widen c) bit = force_lsb c bit.
Proof. rewrite manipulateLSB_force, to_uint8_widen. reflexivity. Qed.

Lemma low_bit_range (bit : Z) : 0 <= low_bit bit <= 1.
Proof. unfold low_bit. destruct (bit =? 0); lia. Qed.

Lemma u8_force_lsb (v : byte) (bit : Z) :
  u8 (force_lsb v bit) = 2 * (u8 v / 2) + low_bit bit.
Proof.
  unfold force_lsb. rewrite u8_to_uint8.
  pose proof (u8_range v). pose proof (low_bit_range bit).
  pose proof (Z.div_mod (u8 v) 2 ltac:(lia)).
  pose proof (Z.mod_pos_bound (u8 v) 2 ltac:(lia)).
  apply Z.mod_small. lia.
Qed.

Lemma force_lsb_parity (v : byte) (bit : Z) :
  u8 (force_lsb v bit) mod 2 = low_bit bit.
Proof.
  rewrite u8_force_lsb.
  rewrite Z.add_comm, Z.mul_comm, Z.mod_add by lia.
  apply Z.mod_small. pose proof (low_bit_range bit). lia.
Qed.

Lemma force_lsb_high (v : byte) (bit : Z) :
  u8 (force_lsb v bit) / 2 = u8 v / 2.
Proof.
  rewrite u8_force_lsb.
  rewrite Z.add_comm, Z.mul_comm, Z.div_add by lia.
  rewrite Z.div_small by (pose proof (low_bit_range bit); lia).
  reflexivity.
Qed.

Lemma force_lsb_testbit0 (v : byte) (bit : Z) :
  Z.testbit (u8 (force_lsb v bit)) 0 = negb (bit =? 0).
Proof.
  rewrite u8_force_lsb. unfold low_bit.
  destruct (bit =? 0); simpl negb.
  - rewrite Z.add_0_r. apply Z.testbit_even_0.
  - apply Z.testbit_odd_0.
Qed.

Lemma force_lsb_testbit_high (v : byte) (bit : Z) (n : Z) :
  1 <= n -> Z.testbit (u8 (force_lsb v bit)) n = Z.testbit (u8 v) n.
Proof.
  intros Hn.
  replace n with (Z.succ (n - 1)) by lia.
  rewrite <- !Z.div2_bits by lia.
  rewrite force_lsb_high. reflexivity.
Qed.

Lemma force_lsb_near (v : byte) (bit : Z) :
  Z.abs (u8 v - u8 (force_lsb v bit)) <= 1.
Proof.
  rewrite u8_force_lsb.
  pose proof (low_bit_range bit).
  pose proof (Z.div_mod (u8 v) 2 ltac:(lia)).
  pose proof (Z.mod_pos_bound (u8 v) 2 ltac:(lia)).
  lia.
Qed.

End LowBit.

(* ================================================================== *)
(** * Traversal orders                                                *)
(* ================================================================== *)

Section Ranges.

Lemma zrange_S (lo : Z) (n : nat) :
  zrange lo (S n) = lo :: zrange (lo + 1) n.
Proof.
  unfold zrange. simpl. rewrite Z.add_0_r. f_equal.
  rewrite <- seq_shift, map_map.
  apply map_ext. intros i. lia.
Qed.

Lemma zrange_snoc (lo : Z) (n : nat) :
  zrange lo (S n) = zrange lo n ++ [lo + Z.of_nat n].
Proof.
  unfold zrange. rewrite seq_S, map_app. reflexivity.
Qed.

Lemma zrange_length (lo : Z) (n : nat) : length (zrange lo n) = n.
Proof. unfold zrange. rewrite length_map, length_seq. reflexivity. Qed.

Lemma zrange_In (lo : Z) (n : nat) (v : Z) :
  List.In v (zrange lo n) <-> lo <= v < lo + Z.of_nat n.
Proof.
  unfold zrange. rewrite in_map_iff. split.
  - intros [i [<- Hi]]. apply in_seq in Hi. lia.
  - intros H. exists (Z.to_nat (v - lo)). split; [lia|].
    apply in_seq. lia.
Qed.

Lemma zrange_NoDup (lo : Z) (n : nat) : NoDup (zrange lo n).
Proof.
  revert lo. induction n as [|n IH]; intros lo.
  - constructor.
  - rewrite zrange_S. constructor; [|apply IH].
    rewrite zrange_In. lia.
Qed.

Lemma zrange_nth (lo : Z) (n k : nat) :
  (k < n)%nat -> nth_error (zrange lo n) k = Some (lo + Z.of_nat k).
Proof.
  intros H. unfold zrange.
  rewrite nth_error_map, nth_error_seq.
  destruct (Nat.ltb_spec k n); [reflexivity | lia].
Qed.

Lemma grid_In (xs ys : list Z) (x y : Z) :
  List.In (x, y) (grid xs ys) <-> List.In x xs /\ List.In y ys.
Proof.
  unfold grid. rewrite in_flat_map. split.
  - intros [x' [Hx Hy]]. apply in_map_iff in Hy.
    destruct Hy as [y' [E Hy]]. inversion E; subst. auto.
  - intros [Hx Hy]. exists x. split; [assumption|].
    apply in_map_iff. exists y. auto.
Qed.

Lemma column_NoDup (x : Z) (ys : list Z) :
  NoDup ys -> NoDup (map (fun y => (x, y)) ys).
Proof.
  induction 1 as [|y ys Hy Hys IH]; simpl; constructor; [|exact IH].
  rewrite in_map_iff. intros [y' [E Hy']]. inversion E; subst. contradiction.
Qed.

Lemma grid_NoDup (xs ys : list Z) :
  NoDup xs -> NoDup ys -> NoDup (grid xs ys).
Proof.
  intros Hxs Hys. induction Hxs as [|x xs Hx Hxs IH]; simpl.
  - constructor.
  - change (NoDup (map (fun y => (x, y)) ys ++ grid xs ys)).
    apply NoDup_app.
    + apply column_NoDup. assumption.
    + exact IH.
    + intros [a b] Ha Hb. apply in_map_iff in Ha.
      destruct Ha as [y' [E _]]. inversion E; subst.
      apply grid_In in Hb. tauto.
Qed.

Lemma grid_cons (x : Z) (xs ys : list Z) :
  grid (x :: xs) ys = map (fun y => (x, y)) ys ++ grid xs ys.
Proof. reflexivity. Qed.

Lemma embed_coords_In (b : image.Rectangle) (x y : Z) :
  List.In (x, y) (embed_coords b) <-> image.In x y b = true.
Proof.
  unfold embed_coords, image.In, image.Dx, image.Dy, minX, minY.
  rewrite grid_In, !zrange_In, !andb_true_iff.
  rewrite !Z.leb_le, !Z.ltb_lt. lia.
Qed.

Lemma embed_coords_NoDup (b : image.Rectangle) : NoDup (embed_coords b).
Proof. apply grid_NoDup; apply zrange_NoDup. Qed.

End Ranges.

(* ================================================================== *)
(** * Embedding: what the loops of [embedSecret] write                *)
(* ================================================================== *)

Section PixelStore.

Lemma Rect_SetRGBA (m : image.RGBA) (x y : Z) (c : color.RGBA) :
  image.Rect (image.RGBA_SetRGBA m x y c) = image.Rect m.
Proof.
  unfold image.RGBA_SetRGBA. destruct (image.In x y (image.Rect m)); reflexivity.
Qed.

Lemma At_SetRGBA_same (m : image.RGBA) (x y : Z) (c : color.RGBA) :
  image.In x y (image.Rect m) = true ->
  image.RGBA_At (image.RGBA_SetRGBA m x y c) x y = c.
Proof.
  intros H. unfold image.RGBA_At, image.RGBA_SetRGBA.
  rewrite H. simpl. rewrite H, !Z.eqb_refl. reflexivity.
Qed.

Lemma At_SetRGBA_other (m : image.RGBA) (x y x' y' : Z) (c : color.RGBA) :
  (x', y') <> (x, y) ->
  image.RGBA_At (image.RGBA_SetRGBA m x y c) x' y' = image.RGBA_At m x' y'.
Proof.
  intros H. unfold image.RGBA_At, image.RGBA_SetRGBA.
  destruct (image.In x y (image.Rect m)); [|reflexivity]. simpl.
  destruct (x' =? x) eqn:Ex; [|reflexivity].
  destruct (y' =? y) eqn:Ey; [|reflexivity].
  apply Z.eqb_eq in Ex, Ey. subst. contradiction.
Qed.

End PixelStore.

Section EmbedSpec.
Variable bits : list Z.

Lemma skipn_nth (k : nat) :
  (k < length bits)%nat -> skipn k bits = nth k bits 0 :: skipn (S k) bits.
Proof.
  revert k. induction bits as [|b l IH]; intros k Hk; simpl in Hk; [lia|].
  destruct k as [|k]; [reflexivity|].
  simpl. apply IH. lia.
Qed.

Lemma skipn_done (k : nat) : (length bits <= k)%nat -> skipn k bits = [].
Proof. apply skipn_all2. Qed.

(** One execution of the loop body. *)
Lemma embed_pixel_spec (x y : Z) (img : image.RGBA) (idx : nat) :
  (idx < length bits)%nat ->
  embed_pixel bits x y (img, idx)
  = (image.RGBA_SetRGBA img x y
       (write_channels (image.RGBA_At img x y) (skipn idx bits)),
     Nat.min (idx + 3) (length bits)).
Proof.
  intros Hidx. unfold embed_pixel, color.RGBA_RGBA. cbv beta iota zeta.
  rewrite (skipn_nth idx Hidx). unfold write_channels.
  rewrite to_uint8_widen_div.
  destruct (Nat.ltb_spec (S idx) (length bits)) as [H1|H1].
  - rewrite (skipn_nth (S idx) H1). cbv beta iota zeta.
    destruct (Nat.ltb_spec (S (S idx)) (length bits)) as [H2|H2].
    + rewrite (skipn_nth (S (S idx)) H2).
      rewrite !manipulateLSB_widen. f_equal. lia.
    + rewrite (skipn_done (S (S idx)) H2).
      rewrite !manipulateLSB_widen, to_uint8_widen. f_equal. lia.
  - rewrite (skipn_done (S idx) H1). cbv beta iota zeta.
    destruct (Nat.ltb_spec (S idx) (length bits)) as [H2|H2]; [lia|].
    rewrite manipulateLSB_widen, !to_uint8_widen. f_equal. lia.
Qed.

Lemma walk_cons (x y : Z) (cs : list (Z * Z)) (st : image.RGBA * nat) :
  walk bits ((x, y) :: cs) st
  = if (snd st <? length bits)%nat
    then walk bits cs (embed_pixel bits x y st)
    else st.
Proof. reflexivity. Qed.

Lemma walk_done (cs : list (Z * Z)) (st : image.RGBA * nat) :
  (length bits <= snd st)%nat -> walk bits cs st = st.
Proof.
  intros H. destruct cs as [|[x y] cs]; [reflexivity|]. rewrite walk_cons.
  destruct (Nat.ltb_spec (snd st) (length bits)); [lia | reflexivity].
Qed.

Lemma walk_app (l1 l2 : list (Z * Z)) (st : image.RGBA * nat) :
  walk bits (l1 ++ l2) st = walk bits l2 (walk bits l1 st).
Proof.
  revert st. induction l1 as [|[x y] l1 IH]; intros st; [reflexivity|].
  rewrite <- app_comm_cons, !walk_cons.
  destruct (Nat.ltb_spec (snd st) (length bits)) as [H|H].
  - apply IH.
  - symmetry. apply walk_done. exact H.
Qed.

Lemma embed_loop_y_walk (n : nat) (x y : Z) (st : image.RGBA * nat) :
  embed_loop_y bits n x y st
  = walk bits (map (fun y' => (x, y')) (zrange y n)) st.
Proof.
  revert y st. induction n as [|n IH]; intros y st; [reflexivity|].
  rewrite zrange_S. cbn [map embed_loop_y]. rewrite walk_cons.
  destruct (snd st <? length bits)%nat; [apply IH | reflexivity].
Qed.

Lemma embed_loop_x_walk (n : nat) (b : image.Rectangle) (x : Z)
      (st : image.RGBA * nat) :
  embed_loop_x bits n b x st
  = walk bits (grid (zrange x n) (zrange (minY b) (Z.to_nat (image.Dy b)))) st.
Proof.
  revert x st. induction n as [|n IH]; intros x st; [reflexivity|].
  rewrite zrange_S, grid_cons, walk_app. cbn [embed_loop_x].
  rewrite embed_loop_y_walk.
  fold (minY b). fold (maxY b).
  change (maxY b - minY b) with (image.Dy b).
  set (st' := walk bits _ st).
  destruct (Nat.leb_spec (length bits) (snd st')) as [H|H].
  - symmetry. apply walk_done. exact H.
  - apply IH.
Qed.

(** The walk over distinct in-bounds pixels, pixel by pixel. *)
Lemma walk_spec (cs : list (Z * Z)) :
  forall (img : image.RGBA) (idx : nat),
    NoDup cs ->
    (forall x y, List.In (x, y) cs -> image.In x y (image.Rect img) = true) ->
    image.Rect (fst (walk bits cs (img, idx))) = image.Rect img
    /\ (forall k x y,
           nth_error cs k = Some (x, y) ->
           image.RGBA_At (fst (walk bits cs (img, idx))) x y
           = write_channels (image.RGBA_At img x y) (skipn (idx + 3 * k) bits))
    /\ (forall x y,
           ~ List.In (x, y) cs ->
           image.RGBA_At (fst (walk bits cs (img, idx))) x y
           = image.RGBA_At img x y).
Proof.
  induction cs as [|[x0 y0] cs IH]; intros img idx Hnd Hin.
  - simpl. split; [reflexivity|]. split; [|reflexivity].
    intros k x y H. destruct k; discriminate.
  - rewrite walk_cons. cbn [snd].
    inversion Hnd as [|p l Hnotin Hnd']; subst.
    destruct (Nat.ltb_spec idx (length bits)) as [Hlt|Hge].
    + rewrite (embed_pixel_spec x0 y0 img idx Hlt).
      set (c1 := write_channels (image.RGBA_At img x0 y0) (skipn idx bits)).
      set (img1 := image.RGBA_SetRGBA img x0 y0 c1).
      set (idx1 := Nat.min (idx + 3) (length bits)).
      assert (Hrect : image.Rect img1 = image.Rect img)
        by apply Rect_SetRGBA.
      destruct (IH img1 idx1 Hnd') as [IHr [IHk IHo]].
      { intros x y Hxy. rewrite Hrect. apply Hin. right. exact Hxy. }
      split; [congruence|]. split.
      * intros k x y Hk. destruct k as [|k]; simpl in Hk.
        -- inversion Hk; subst x y.
           rewrite (IHo x0 y0 Hnotin). unfold img1.
           rewrite At_SetRGBA_same by (apply Hin; left; reflexivity).
           unfold c1. f_equal. f_equal. lia.
        -- rewrite (IHk k x y Hk).
           assert (Hne : (x, y) <> (x0, y0)).
           { intros E. inversion E; subst. apply Hnotin.
             eapply nth_error_In. exact Hk. }
           unfold img1. rewrite (At_SetRGBA_other _ _ _ _ _ _ Hne).
           f_equal. unfold idx1.
           destruct (Nat.le_gt_cases (idx + 3) (length bits)) as [H3|H3].
           ++ rewrite Nat.min_l by exact H3. f_equal. lia.
           ++ rewrite Nat.min_r by lia.
              rewrite !skipn_done by lia. reflexivity.
      * intros x y Hxy.
        rewrite IHo by (intros H; apply Hxy; right; exact H).
        unfold img1. apply At_SetRGBA_other.
        intros E. apply Hxy. left. symmetry. exact E.
    + simpl fst. split; [reflexivity|]. split; [|reflexivity].
      intros k x y _. rewrite skipn_done by lia. reflexivity.
Qed.

(** The number of bits consumed. *)
Lemma walk_index (cs : list (Z * Z)) :
  forall (img : image.RGBA) (idx : nat),
    (idx <= length bits)%nat ->
    snd (walk bits cs (img, idx))
    = Nat.min (idx + 3 * length cs) (length bits).
Proof.
  induction cs as [|[x0 y0] cs IH]; intros img idx Hle.
  - simpl. lia.
  - rewrite walk_cons. cbn [snd].
    destruct (Nat.ltb_spec idx (length bits)) as [Hlt|Hge].
    + rewrite (embed_pixel_spec x0 y0 img idx Hlt).
      rewrite IH by lia. simpl length. lia.
    + simpl snd. simpl length. lia.
Qed.

End EmbedSpec.

(** ** [embedSecret] as a whole *)

Section EmbedSecret.

Lemma embedSecret_fails (s : StegImage) (img : image.RGBA) :
  newImg s = Some img ->
  capacity_bound (image.Rect img) < Z.of_nat (length (secretBits s)) ->
  embedSecret s = (s, Err CapacityExceeded).
Proof.
  intros Hn Hc. unfold embedSecret. rewrite Hn.
  unfold capacity_bound, maxX, maxY in Hc.
  destruct (Z.gtb_spec (Z.of_nat (length (secretBits s)))
              (to_int (to_int (image.X (image.Max (image.Rect img))
                               * image.Y (image.Max (image.Rect img))) * 3)));
    [reflexivity | lia].
Qed.

Lemma embedSecret_succeeds (s : StegImage) (img : image.RGBA) :
  newImg s = Some img ->
  Z.of_nat (length (secretBits s)) <= capacity_bound (image.Rect img) ->
  embedSecret s = (set_newImg s (embedded (secretBits s) img), Ok tt).
Proof.
  intros Hn Hc. unfold embedSecret. rewrite Hn.
  unfold capacity_bound, maxX, maxY in Hc.
  destruct (Z.gtb_spec (Z.of_nat (length (secretBits s)))
              (to_int (to_int (image.X (image.Max (image.Rect img))
                               * image.Y (image.Max (image.Rect img))) * 3)));
    [lia|].
  rewrite embed_loop_x_walk. reflexivity.
Qed.

Lemma embedded_Rect (bits : list Z) (img : image.RGBA) :
  image.Rect (embedded bits img) = image.Rect img.
Proof.
  unfold embedded.
  apply (walk_spec bits (embed_coords (image.Rect img)) img O).
  - apply embed_coords_NoDup.
  - intros x y. apply embed_coords_In.
Qed.

Lemma embedded_nth (bits : list Z) (img : image.RGBA) (k : nat) (x y : Z) :
  nth_error (embed_coords (image.Rect img)) k = Some (x, y) ->
  image.RGBA_At (embedded bits img) x y
  = write_channels (image.RGBA_At img x y) (skipn (3 * k) bits).
Proof.
  intros Hk. unfold embedded.
  destruct (walk_spec bits (embed_coords (image.Rect img)) img O)
    as [_ [H _]].
  - apply embed_coords_NoDup.
  - intros x' y'. apply embed_coords_In.
  - apply (H k x y Hk).
Qed.

Lemma embedded_outside (bits : list Z) (img : image.RGBA) (x y : Z) :
  ~ List.In (x, y) (embed_coords (image.Rect img)) ->
  image.RGBA_At (embedded bits img) x y = image.RGBA_At img x y.
Proof.
  intros Hk. unfold embedded.
  destruct (walk_spec bits (embed_coords (image.Rect img)) img O)
    as [_ [_ H]].
  - apply embed_coords_NoDup.
  - intros x' y'. apply embed_coords_In.
  - apply (H x y Hk).
Qed.

Lemma embedded_unvisited (bits : list Z) (img : image.RGBA) (x y : Z) :
  ~ visited bits (image.Rect img) x y ->
  image.RGBA_At (embedded bits img) x y = image.RGBA_At img x y.
Proof.
  intros Hv.
  destruct (in_dec (fun p q : Z * Z =>
                      ltac:(decide equality; apply Z.eq_dec) : {p = q} + {p <> q})
                   (x, y) (embed_coords (image.Rect img))) as [Hin|Hout].
  - apply In_nth_error in Hin. destruct Hin as [k Hk].
    rewrite (embedded_nth bits img k x y Hk).
    destruct (Nat.lt_ge_cases (3 * k) (length bits)) as [Hlt|Hge].
    + exfalso. apply Hv. exists k. auto.
    + rewrite (skipn_done bits (3 * k) Hge). reflexivity.
  - apply embedded_outside. exact Hout.
Qed.

(** Every pixel of the result is the source pixel with some bits
    written to it, possibly none. *)
Lemma embedded_pixel (bits : list Z) (img : image.RGBA) (x y : Z) :
  exists bs, image.RGBA_At (embedded bits img) x y
             = write_channels (image.RGBA_At img x y) bs.
Proof.
  destruct (in_dec (fun p q : Z * Z =>
                      ltac:(decide equality; apply Z.eq_dec) : {p = q} + {p <> q})
                   (x, y) (embed_coords (image.Rect img))) as [Hin|Hout].
  - apply In_nth_error in Hin. destruct Hin as [k Hk].
    eexists. apply (embedded_nth bits img k x y Hk).
  - exists []. apply embedded_outside. exact Hout.
Qed.

(** Position [k] of the traversal, for a grid of [nx] columns of [ny]
    pixels: column [k / ny], row [k mod ny]. *)
Lemma grid_nth (ny : nat) (y0 : Z) :
  forall (nx : nat) (x0 : Z) (k : nat),
    (k < nx * ny)%nat ->
    nth_error (grid (zrange x0 nx) (zrange y0 ny)) k
    = Some (x0 + Z.of_nat (k / ny), y0 + Z.of_nat (k mod ny)).
Proof.
  induction nx as [|nx IH]; intros x0 k Hk; [simpl in Hk; lia|].
  assert (Hny : ny <> O) by (intros E; subst; lia).
  rewrite zrange_S, grid_cons.
  destruct (Nat.lt_ge_cases k ny) as [Hlt|Hge].
  - rewrite nth_error_app1 by (rewrite length_map, zrange_length; exact Hlt).
    rewrite nth_error_map, (zrange_nth y0 ny k Hlt). simpl.
    rewrite Nat.div_small, Nat.mod_small by exact Hlt.
    f_equal. f_equal. lia.
  - rewrite nth_error_app2 by (rewrite length_map, zrange_length; exact Hge).
    rewrite length_map, zrange_length.
    rewrite IH by (simpl in Hk; lia).
    assert (Hd : (k / ny = 1 + (k - ny) / ny)%nat).
    { replace k with ((k - ny) + 1 * ny)%nat at 1 by lia.
      rewrite Nat.div_add by exact Hny. lia. }
    assert (Hm : (k mod ny = (k - ny) mod ny)%nat).
    { replace k with ((k - ny) + 1 * ny)%nat at 1 by lia.
      apply Nat.Div0.mod_add. }
    rewrite Hd, Hm. f_equal. f_equal. lia.
Qed.

End EmbedSecret.

(* ================================================================== *)
(** * Serialisation: [stringToBinary], [stringsToInts], [loadSecret]   *)
(* ================================================================== *)

Section Serialise.

Lemma fold_left_app_concat (A : Type) (f : A -> gostring) (l : list A)
      (acc : gostring) :
  fold_left (fun res c => res ++ f c) l acc = acc ++ concat (map f l).
Proof.
  revert acc. induction l as [|a l IH]; intros acc; simpl.
  - rewrite app_nil_r. reflexivity.
  - rewrite IH, app_assoc. reflexivity.
Qed.

Lemma stringToBinary_concat (s : gostring) :
  stringToBinary s = concat (map fmt_08b (range_string s)).
Proof. unfold stringToBinary. apply fold_left_app_concat. Qed.

(** Iterating over an ASCII string yields one rune per byte. *)
Lemma range_string_ascii (s : gostring) :
  forallb is_ascii s = true -> range_string s = map u8 s.
Proof.
  induction s as [|b s IH]; intros H; [reflexivity|].
  simpl in H. apply andb_true_iff in H. destruct H as [Hb Hs].
  unfold is_ascii in Hb. cbn [range_string map].
  rewrite Hb, (IH Hs). reflexivity.
Qed.

(** The 8 digits printed for a byte are its bits. *)
Lemma fmt_08b_byte (b : byte) :
  forallb is_bit_digit (fmt_08b (u8 b)) = true
  /\ map digit_bit (fmt_08b (u8 b)) = byte_bits b.
Proof. destruct b; split; reflexivity. Qed.

Lemma byte_bits_length (b : byte) : length (byte_bits b) = 8%nat.
Proof. reflexivity. Qed.

Lemma string_bits_length (s : gostring) :
  length (string_bits s) = (8 * length s)%nat.
Proof.
  induction s as [|b s IH]; [reflexivity|].
  unfold string_bits in *. cbn [flat_map]. rewrite length_app, IH, byte_bits_length.
  simpl length. lia.
Qed.

Lemma string_bits_app (s t : gostring) :
  string_bits (s ++ t) = string_bits s ++ string_bits t.
Proof. unfold string_bits. apply flat_map_app. Qed.

Lemma Atoi_bit_digit (c : byte) :
  is_bit_digit c = true -> strconv_Atoi [c] = Some (digit_bit c).
Proof.
  unfold is_bit_digit. intros H. apply orb_true_iff in H.
  destruct H as [H|H]; apply Byte.byte_dec_bl in H; subst; reflexivity.
Qed.

Lemma stringsToInts_digits (d : gostring) :
  forall acc,
    forallb is_bit_digit d = true ->
    stringsToInts_from acc (strings_Split_chars d)
    = (acc ++ map digit_bit d, None).
Proof.
  induction d as [|c d IH]; intros acc H.
  - simpl. rewrite app_nil_r. reflexivity.
  - simpl in H. apply andb_true_iff in H. destruct H as [Hc Hd].
    unfold strings_Split_chars. cbn [map stringsToInts_from].
    rewrite (Atoi_bit_digit c Hc).
    fold (strings_Split_chars d). rewrite (IH _ Hd), <- app_assoc.
    reflexivity.
Qed.

Lemma forallb_concat (A : Type) (p : A -> bool) (ls : list (list A)) :
  forallb (forallb p) ls = true -> forallb p (concat ls) = true.
Proof.
  induction ls as [|l ls IH]; intros H; [reflexivity|].
  simpl in *. apply andb_true_iff in H. destruct H as [Hl Hls].
  rewrite forallb_app, Hl, (IH Hls). reflexivity.
Qed.

Lemma binary_of_bytes (s : gostring) :
  forallb is_bit_digit (concat (map fmt_08b (map u8 s))) = true
  /\ map digit_bit (concat (map fmt_08b (map u8 s))) = string_bits s.
Proof.
  induction s as [|b s [IH1 IH2]]; [split; reflexivity|].
  destruct (fmt_08b_byte b) as [Hd Hb].
  cbn [map concat]. split.
  - rewrite forallb_app, Hd, IH1. reflexivity.
  - rewrite map_app, Hb, IH2. reflexivity.
Qed.

(** What [loadSecret] stores for an ASCII string: its bit stream. *)
Lemma loadSecret_ascii (secret : gostring) (s : StegImage) :
  forallb is_ascii secret = true ->
  loadSecret secret s
  = (set_secretBits s (string_bits (secret ++ stopStegConst)), Ok tt).
Proof.
  intros H. unfold loadSecret, stringsToInts.
  rewrite stringToBinary_concat, range_string_ascii.
  2:{ rewrite forallb_app, H. reflexivity. }
  destruct (binary_of_bytes (secret ++ stopStegConst)) as [Hd Hb].
  rewrite (stringsToInts_digits _ [] Hd). simpl app. rewrite Hb.
  reflexivity.
Qed.

End Serialise.

(** ** [loadSecret] never fails

    Whatever the bytes of the secret, the runes are non-negative, their
    numerals consist of the digits 0 and 1, and [strconv.Atoi] accepts
    every one of them. *)
Section LoadSecretTotal.

Lemma binary_rev_digits (p : positive) :
  forallb is_bit_digit (binary_rev p) = true.
Proof. induction p; simpl; auto. Qed.

Lemma forallb_rev (A : Type) (f : A -> bool) (l : list A) :
  forallb f l = true -> forallb f (rev l) = true.
Proof.
  rewrite !forallb_forall. intros H x Hx. apply H. apply in_rev. exact Hx.
Qed.

Lemma pad8_digits (d : list byte) :
  forallb is_bit_digit d = true -> forallb is_bit_digit (pad8 d) = true.
Proof.
  intros H. unfold pad8. rewrite forallb_app, H, andb_true_r.
  induction (8 - length d)%nat; simpl; auto.
Qed.

Lemma fmt_08b_digits (c : Z) :
  0 <= c -> forallb is_bit_digit (fmt_08b c) = true.
Proof.
  intros Hc. destruct c as [|p|p]; [reflexivity| |lia].
  unfold fmt_08b. apply pad8_digits, forallb_rev, binary_rev_digits.
Qed.

Lemma rune2_nonneg (c0 : Z) (b1 : byte) : 0 <= c0 -> 0 <= rune2 c0 b1.
Proof.
  intros H. pose proof (u8_range b1). unfold rune2.
  apply Z.lor_nonneg. split.
  - apply Z.shiftl_nonneg. apply Z.land_nonneg. left. exact H.
  - apply Z.land_nonneg. right. lia.
Qed.

Lemma rune3_nonneg (c0 : Z) (b1 b2 : byte) : 0 <= c0 -> 0 <= rune3 c0 b1 b2.
Proof.
  intros H. pose proof (u8_range b1). pose proof (u8_range b2). unfold rune3.
  repeat (apply Z.lor_nonneg; split);
    try apply Z.shiftl_nonneg; apply Z.land_nonneg; right; lia.
Qed.

Lemma rune4_nonneg (c0 : Z) (b1 b2 b3 : byte) :
  0 <= c0 -> 0 <= rune4 c0 b1 b2 b3.
Proof.
  intros H. pose proof (u8_range b1). pose proof (u8_range b2).
  pose proof (u8_range b3). unfold rune4.
  repeat (apply Z.lor_nonneg; split);
    try apply Z.shiftl_nonneg; apply Z.land_nonneg; right; lia.
Qed.

Lemma range_string_nonneg_upto (n : nat) :
  forall s, (length s <= n)%nat -> Forall (fun r => 0 <= r) (range_string s).
Proof.
  induction n as [|n IH]; intros s Hs.
  - destruct s; [constructor | simpl in Hs; lia].
  - destruct s as [|b0 t0]; [constructor|].
    simpl in Hs.
    assert (H0 : Forall (fun r => 0 <= r) (range_string t0)) by (apply IH; lia).
    assert (Hbad : Forall (fun r => 0 <= r) (RuneError :: range_string t0)).
    { constructor; [unfold RuneError; lia | exact H0]. }
    pose proof (u8_range b0) as Hb0.
    cbn [range_string].
    destruct (u8 b0 <? 128); [constructor; [lia | exact H0]|].
    destruct ((192 <=? u8 b0) && (u8 b0 <? 224)).
    { destruct t0 as [|b1 t1]; [exact Hbad|].
      destruct (is_cont b1 && (127 <? rune2 (u8 b0) b1)); [|exact Hbad].
      constructor; [apply rune2_nonneg; lia | apply IH; simpl in Hs; lia]. }
    destruct ((224 <=? u8 b0) && (u8 b0 <? 240)).
    { destruct t0 as [|b1 [|b2 t2]]; try exact Hbad.
      match goal with |- context [if ?c then _ else _] => destruct c end;
        [|exact Hbad].
      constructor; [apply rune3_nonneg; lia | apply IH; simpl in Hs; lia]. }
    destruct ((240 <=? u8 b0) && (u8 b0 <? 248)); [|exact Hbad].
    destruct t0 as [|b1 [|b2 [|b3 t3]]]; try exact Hbad.
    match goal with |- context [if ?c then _ else _] => destruct c end;
      [|exact Hbad].
    constructor; [apply rune4_nonneg; lia | apply IH; simpl in Hs; lia].
Qed.

Lemma range_string_nonneg (s : gostring) :
  Forall (fun r => 0 <= r) (range_string s).
Proof. apply (range_string_nonneg_upto (length s)). lia. Qed.

Lemma stringToBinary_digits (s : gostring) :
  forallb is_bit_digit (stringToBinary s) = true.
Proof.
  rewrite stringToBinary_concat. apply forallb_concat.
  pose proof (range_string_nonneg s) as H.
  induction H as [|r l Hr Hl IH]; [reflexivity|].
  simpl. rewrite (fmt_08b_digits r Hr). exact IH.
Qed.

Lemma loadSecret_total (secret : gostring) (s : StegImage) :
  loadSecret secret s
  = (set_secretBits s
       (map digit_bit (stringToBinary (secret ++ stopStegConst))), Ok tt).
Proof.
  unfold loadSecret, stringsToInts.
  rewrite (stringsToInts_digits _ [] (stringToBinary_digits _)).
  reflexivity.
Qed.

End LoadSecretTotal.

(* ================================================================== *)
(** * Extraction: the scan of [getSecretString]                       *)
(* ================================================================== *)

Section Scan.
Variable growcap : nat -> nat -> nat.

Lemma parity_mod (v : Z) : (if v mod 2 =? 0 then 0 else 1) = parity v.
Proof.
  unfold parity. rewrite Zmod_even. destruct (Z.even v); reflexivity.
Qed.

Lemma getBitsFromRGB_pixel (r g b a : Z) :
  getBitsFromRGB [r; g; b] = pixel_bits (r, g, b, a).
Proof.
  unfold getBitsFromRGB, pixel_bits. cbn [fold_left].
  rewrite <- !parity_mod.
  destruct (r mod 2 =? 0), (g mod 2 =? 0), (b mod 2 =? 0); reflexivity.
Qed.

Lemma elts_append (s : slice) (xs : list Z) :
  elts (append growcap s xs) = elts s ++ xs.
Proof. reflexivity. Qed.

Lemma loop_y_elts (img : image.Image) (x : Z) (n : nat) :
  forall (y : Z) (s : slice),
    elts (getSecretString_loop_y growcap n img x y s)
    = elts s ++ flat_map (fun p => pixel_bits (image.At img (fst p) (snd p)))
                         (map (fun y' => (x, y')) (zrange y n)).
Proof.
  induction n as [|n IH]; intros y s.
  - simpl. rewrite app_nil_r. reflexivity.
  - rewrite zrange_S. cbn [getSecretString_loop_y map flat_map fst snd].
    destruct (image.At img x y) as [[[r g] b] a] eqn:E.
    rewrite IH, elts_append, (getBitsFromRGB_pixel r g b a), <- app_assoc.
    reflexivity.
Qed.

Lemma loop_x_elts (img : image.Image) (n : nat) :
  forall (x : Z) (s : slice),
    elts (getSecretString_loop_x growcap n img x s)
    = elts s ++ flat_map (fun p => pixel_bits (image.At img (fst p) (snd p)))
                         (grid (zrange x n)
                               (zrange (minY (image.Bounds img))
                                       (Z.to_nat (image.Dy (image.Bounds img) + 1)))).
Proof.
  induction n as [|n IH]; intros x s.
  - simpl. rewrite app_nil_r. reflexivity.
  - rewrite zrange_S, grid_cons, flat_map_app.
    cbn [getSecretString_loop_x]. rewrite IH, loop_y_elts, <- app_assoc.
    reflexivity.
Qed.

(** Capacities stay sufficient when the runtime grows slices as the
    language requires. *)
Hypothesis growcap_ge : forall c n : nat, (n <= growcap c n)%nat.

Lemma cap_append (s : slice) (xs : list Z) :
  (len s <= cap s)%nat ->
  (len (append growcap s xs) <= cap (append growcap s xs))%nat.
Proof.
  intros H. unfold len, append. cbn [elts cap]. rewrite length_app.
  fold (len s).
  destruct (Nat.leb_spec (len s + length xs) (cap s)); [lia|].
  apply growcap_ge.
Qed.

Lemma loop_y_cap (img : image.Image) (x : Z) (n : nat) :
  forall (y : Z) (s : slice),
    (len s <= cap s)%nat ->
    (len (getSecretString_loop_y growcap n img x y s)
     <= cap (getSecretString_loop_y growcap n img x y s))%nat.
Proof.
  induction n as [|n IH]; intros y s H; [exact H|].
  cbn [getSecretString_loop_y].
  destruct (image.At img x y) as [[[r g] b] a].
  apply IH, cap_append, H.
Qed.

Lemma loop_x_cap (img : image.Image) (n : nat) :
  forall (x : Z) (s : slice),
    (len s <= cap s)%nat ->
    (len (getSecretString_loop_x growcap n img x s)
     <= cap (getSecretString_loop_x growcap n img x s))%nat.
Proof.
  induction n as [|n IH]; intros x s H; [exact H|].
  cbn [getSecretString_loop_x]. apply IH, loop_y_cap, H.
Qed.

End Scan.

Section ScanBits.

Lemma scanBits_elts (growcap : nat -> nat -> nat) (img : image.Image) :
  0 <= to_int (maxX (image.Bounds img) * maxY (image.Bounds img)) ->
  exists c, scanBits growcap img = Ok (mkSlice (scan_bits img) c).
Proof.
  intros H. unfold scanBits. fold (maxX (image.Bounds img)) (maxY (image.Bounds img)).
  destruct (Z.ltb_spec (to_int (maxX (image.Bounds img) * maxY (image.Bounds img))) 0);
    [lia|].
  match goal with |- exists c, Ok ?s = _ => exists (cap s); f_equal;
    destruct s as [e c] eqn:E end.
  cbn [cap]. f_equal.
  apply (f_equal elts) in E. rewrite loop_x_elts in E. cbn [elts] in E.
  rewrite <- E. reflexivity.
Qed.

Lemma scanBits_cap (growcap : nat -> nat -> nat) (img : image.Image) (s : slice) :
  (forall c n : nat, (n <= growcap c n)%nat) ->
  scanBits growcap img = Ok s -> (len s <= cap s)%nat.
Proof.
  intros Hg. unfold scanBits.
  destruct (_ <? 0); [discriminate|].
  intros E. inversion E; subst.
  apply loop_x_cap; [exact Hg|]. unfold len. simpl. lia.
Qed.



Lemma grid_length (xs ys : list Z) :
  length (grid xs ys) = (length xs * length ys)%nat.
Proof.
  unfold grid. induction xs as [|x xs IH]; [reflexivity|].
  cbn [flat_map]. rewrite length_app, length_map, IH. simpl. lia.
Qed.



End ScanBits.

(* ================================================================== *)
(** * Regrouping: [getCharFromBits] and [bitsToString]                *)
(* ================================================================== *)

Section Regroup.

Lemma getCharFromBits_msb (b0 b1 b2 b3 b4 b5 b6 b7 : Z) :
  getCharFromBits [b0; b1; b2; b3; b4; b5; b6; b7]
  = string_of_int (msb_value [b0; b1; b2; b3; b4; b5; b6; b7]).
Proof.
  unfold getCharFromBits, msb_value.
  cbn [getCharFromBits_loop nth fold_left].
  destruct (b0 =? 1), (b1 =? 1), (b2 =? 1), (b3 =? 1),
           (b4 =? 1), (b5 =? 1), (b6 =? 1), (b7 =? 1); reflexivity.
Qed.

Lemma list8 (l : list Z) :
  (8 <= length l)%nat ->
  exists b0 b1 b2 b3 b4 b5 b6 b7 rest,
    l = b0 :: b1 :: b2 :: b3 :: b4 :: b5 :: b6 :: b7 :: rest.
Proof.
  intros H.
  do 8 (destruct l as [|? l]; [simpl in H; lia|]).
  repeat eexists.
Qed.

Lemma backing_length (s : slice) :
  (len s <= cap s)%nat -> length (backing s) = cap s.
Proof.
  intros H. unfold backing. rewrite length_app, repeat_length.
  fold (len s). lia.
Qed.

(** While the slices stay within the capacity, the loop regroups the
    backing array. *)
Lemma bitsToString_from_ok (s : slice) (n : nat) :
  forall (i : nat) (out : gostring),
    (len s <= cap s)%nat ->
    (i + 8 * n <= cap s)%nat ->
    bitsToString_from n s i out
    = Ok (out ++ text_of_bits (firstn (8 * n) (skipn i (backing s)))).
Proof.
  induction n as [|n IH]; intros i out Hcap Hn.
  - simpl. rewrite app_nil_r. reflexivity.
  - cbn [bitsToString_from]. unfold slice_expr.
    destruct (Nat.leb_spec i (i + 8)); [|lia].
    destruct (Nat.leb_spec (i + 8) (cap s)); [|lia].
    cbn [andb]. replace (i + 8 - i)%nat with 8%nat by lia.
    destruct (list8 (skipn i (backing s))) as
      (b0 & b1 & b2 & b3 & b4 & b5 & b6 & b7 & rest & E).
    { rewrite length_skipn, backing_length by exact Hcap. lia. }
    rewrite IH by (try exact Hcap; lia).
    replace (i + 8)%nat with (8 + i)%nat by lia.
    rewrite <- skipn_skipn, E.
    replace (8 * S n)%nat with (8 + 8 * n)%nat by lia.
    cbn [firstn skipn Nat.add text_of_bits].
    rewrite getCharFromBits_msb, <- app_assoc. reflexivity.
Qed.

(** A slice past the capacity panics. *)
Lemma bitsToString_from_panic (s : slice) (n : nat) :
  forall (i : nat) (out : gostring),
    (0 < n)%nat ->
    (cap s < i + 8 * n)%nat ->
    bitsToString_from n s i out = Panic SliceBounds.
Proof.
  induction n as [|n IH]; intros i out Hn Hc; [lia|].
  cbn [bitsToString_from]. unfold slice_expr.
  destruct (Nat.leb_spec (i + 8) (cap s)) as [H8|H8].
  - destruct (Nat.leb_spec i (i + 8)); [|lia]. cbn [andb].
    apply IH; lia.
  - rewrite andb_false_r. reflexivity.
Qed.

Lemma firstn_backing (s : slice) :
  firstn (len s) (backing s) = elts s.
Proof.
  unfold backing, len.
  rewrite firstn_app, Nat.sub_diag, firstn_all. simpl. apply app_nil_r.
Qed.

(** When the number of bits is a multiple of 8, [bitsToString] regroups
    exactly the bits of the slice. *)
Lemma bitsToString_whole (s : slice) :
  (len s <= cap s)%nat ->
  (len s mod 8 = 0)%nat ->
  bitsToString s = Ok (text_of_bits (elts s)).
Proof.
  intros Hcap Hm. unfold bitsToString.
  assert (E : len s = (8 * (len s / 8))%nat).
  { pose proof (Nat.div_mod_eq (len s) 8). lia. }
  assert (E7 : ((len s + 7) / 8 = len s / 8)%nat).
  { rewrite E at 1. rewrite Nat.mul_comm, Nat.div_add_l by lia.
    rewrite (Nat.div_small 7 8) by lia. lia. }
  rewrite E7, bitsToString_from_ok by (try exact Hcap; lia).
  simpl skipn. rewrite <- E, firstn_backing. reflexivity.
Qed.

(** In general it regroups the bits of the slice followed by as many zeros
    of the backing array as complete the last group, and panics when the
    capacity does not cover that group. *)
Lemma bitsToString_cases (s : slice) :
  (len s <= cap s)%nat ->
  let n := ((len s + 7) / 8)%nat in
  bitsToString s
  = if (8 * n <=? cap s)%nat
    then Ok (text_of_bits (firstn (8 * n) (backing s)))
    else Panic SliceBounds.
Proof.
  intros Hcap n. unfold bitsToString. fold n.
  destruct (Nat.leb_spec (8 * n) (cap s)) as [H|H].
  - rewrite bitsToString_from_ok by (try exact Hcap; lia). reflexivity.
  - apply bitsToString_from_panic; lia.
Qed.

End Regroup.

(* ================================================================== *)
(** * The sentinel scan: [strings.Index]                              *)
(* ================================================================== *)

Section SentinelSearch.

Lemma has_prefix_iff (sep s : gostring) :
  has_prefix sep s = true <-> occurs_at sep s O.
Proof.
  unfold occurs_at. simpl skipn. revert s.
  induction sep as [|a sep IH]; intros s.
  - simpl. split; [intros _; split; [reflexivity | lia] | reflexivity].
  - destruct s as [|b s]; simpl.
    + split; [discriminate | intros [E _]; discriminate].
    + rewrite andb_true_iff, IH. split.
      * intros [Hab [E L]]. apply Byte.byte_dec_bl in Hab. subst.
        split; [f_equal; exact E | lia].
      * intros [E L]. inversion E as [[Hab E']]. rewrite E'.
        split; [apply Byte.byte_dec_lb; reflexivity | split; [congruence | lia]].
Qed.

Lemma occurs_at_cons (sep : gostring) (a : byte) (s : gostring) (k : nat) :
  occurs_at sep (a :: s) (S k) <-> occurs_at sep s k.
Proof. unfold occurs_at. simpl. split; intros [E L]; split; auto; lia. Qed.

(** [strings.Index] finds the first occurrence. *)
Lemma strings_Index_Some (sep s : gostring) :
  forall k, strings_Index s sep = Some k -> first_occurrence sep s k.
Proof.
  induction s as [|a s IH]; intros k H.
  - simpl in H. destruct (has_prefix sep []) eqn:P; [|discriminate].
    inversion H; subst. split; [apply has_prefix_iff, P | intros j Hj; lia].
  - cbn [strings_Index] in H. destruct (has_prefix sep (a :: s)) eqn:P.
    + inversion H; subst. split; [apply has_prefix_iff, P | intros j Hj; lia].
    + destruct (strings_Index s sep) as [k'|] eqn:E; [|discriminate].
      inversion H; subst. destruct (IH k' eq_refl) as [Ho Hf].
      split; [apply occurs_at_cons, Ho|].
      intros j Hj. destruct j as [|j].
      * intros Hc. apply has_prefix_iff in Hc. congruence.
      * rewrite occurs_at_cons. apply Hf. lia.
Qed.








End SentinelSearch.

(* ================================================================== *)
(** * Reading back what was embedded                                  *)
(* ================================================================== *)

Section ReadBack.

Lemma parity_widen (c : byte) : parity (color.widen c) = u8 c mod 2.
Proof.
  rewrite <- widen_parity. unfold parity. rewrite Zmod_even.
  destruct (Z.even (color.widen c)); reflexivity.
Qed.

Lemma parity_force_lsb (v : byte) (b : Z) :
  is01 b -> parity (color.widen (force_lsb v b)) = b.
Proof.
  intros H. rewrite parity_widen, force_lsb_parity.
  destruct H; subst; reflexivity.
Qed.



Lemma color_bits_length (c : color.RGBA) : length (color_bits c) = 3%nat.
Proof. reflexivity. Qed.

(** The bits read from the pixels of a run are the embedded bits, followed
    by what the source pixels held beyond them. *)
Lemma readback (cs : list color.RGBA) :
  forall bits,
    Forall is01 bits ->
    (length bits <= 3 * length cs)%nat ->
    flat_map color_bits (embed_colors cs bits)
    = bits ++ skipn (length bits) (flat_map color_bits cs).
Proof.
  induction cs as [|c cs IH]; intros bits H01 Hlen.
  - destruct bits; [reflexivity | simpl in Hlen; lia].
  - cbn [embed_colors flat_map].
    destruct bits as [|b0 [|b1 [|b2 bits]]]; cbn [skipn].
    + rewrite (IH [] (Forall_nil _)) by (simpl; lia). reflexivity.
    + inversion H01 as [|? ? H0 _]; subst.
      rewrite (IH [] (Forall_nil _)) by (simpl; lia).
      unfold color_bits at 1 3, pixel_bits, color.RGBA_RGBA, write_channels.
      cbn [color.R color.G color.B color.A].
      rewrite (parity_force_lsb _ b0 H0). reflexivity.
    + inversion H01 as [|? ? H0 H01']; subst.
      inversion H01' as [|? ? H1 _]; subst.
      rewrite (IH [] (Forall_nil _)) by (simpl; lia).
      unfold color_bits at 1 3, pixel_bits, color.RGBA_RGBA, write_channels.
      cbn [color.R color.G color.B color.A].
      rewrite (parity_force_lsb _ b0 H0), (parity_force_lsb _ b1 H1).
      reflexivity.
    + inversion H01 as [|? ? H0 H01']; subst.
      inversion H01' as [|? ? H1 H01'']; subst.
      inversion H01'' as [|? ? H2 H01''']; subst.
      rewrite (IH bits H01''') by (simpl in Hlen; lia).
      unfold color_bits at 1 3, pixel_bits, color.RGBA_RGBA, write_channels.
      cbn [color.R color.G color.B color.A].
      rewrite (parity_force_lsb _ b0 H0), (parity_force_lsb _ b1 H1),
              (parity_force_lsb _ b2 H2).
      reflexivity.
Qed.

(** A run of pixels at the start of the embedding traversal holds the
    embedded colours. *)
Lemma embedded_run (bits : list Z) (img : image.RGBA) (P : list (Z * Z)) :
  forall k0,
    (forall j x y, nth_error P j = Some (x, y) ->
                   nth_error (embed_coords (image.Rect img)) (k0 + j) = Some (x, y)) ->
    map (fun p => image.RGBA_At (embedded bits img) (fst p) (snd p)) P
    = embed_colors (map (fun p => image.RGBA_At img (fst p) (snd p)) P)
                   (skipn (3 * k0) bits).
Proof.
  induction P as [|[x y] P IH]; intros k0 H; [reflexivity|].
  cbn [map embed_colors fst snd]. f_equal.
  - apply embedded_nth. rewrite <- (Nat.add_0_r k0). apply (H O). reflexivity.
  - rewrite skipn_skipn. replace (3 + 3 * k0)%nat with (3 * S k0)%nat by lia.
    apply IH. intros j x' y' Hj.
    replace (S k0 + j)%nat with (k0 + S j)%nat by lia.
    apply H. exact Hj.
Qed.

(** Decoding the bit stream of an ASCII string gives the string back. *)
Lemma decode_ascii_byte (b : byte) :
  is_ascii b = true -> string_of_int (msb_value (byte_bits b)) = [b].
Proof. destruct b; intros H; solve [reflexivity | discriminate H]. Qed.

Lemma text_of_string_bits (s : gostring) (rest : list Z) :
  forallb is_ascii s = true ->
  text_of_bits (string_bits s ++ rest) = s ++ text_of_bits rest.
Proof.
  induction s as [|b s IH]; intros H; [reflexivity|].
  simpl in H. apply andb_true_iff in H. destruct H as [Hb Hs].
  unfold string_bits. cbn [flat_map]. fold (string_bits s).
  rewrite <- app_assoc.
  change (byte_bits b) with
    [Z.b2z (Z.testbit (u8 b) 7); Z.b2z (Z.testbit (u8 b) 6);
     Z.b2z (Z.testbit (u8 b) 5); Z.b2z (Z.testbit (u8 b) 4);
     Z.b2z (Z.testbit (u8 b) 3); Z.b2z (Z.testbit (u8 b) 2);
     Z.b2z (Z.testbit (u8 b) 1); Z.b2z (Z.testbit (u8 b) 0)].
  cbn [app text_of_bits].
  rewrite (IH Hs).
  change (string_of_int (msb_value (byte_bits b)) ++ s ++ text_of_bits rest
          = (b :: s) ++ text_of_bits rest).
  rewrite (decode_ascii_byte b Hb). reflexivity.
Qed.


End ReadBack.

(* ================================================================== *)
(** * The embedding operation                                         *)
(* ================================================================== *)

Section EmbedClaims.

Lemma embedded_visited_or_same (bits : list Z) (img : image.RGBA) (x y : Z) :
  visited bits (image.Rect img) x y
  \/ image.RGBA_At (embedded bits img) x y = image.RGBA_At img x y.
Proof.
  destruct (in_dec (fun p q : Z * Z =>
                      ltac:(decide equality; apply Z.eq_dec) : {p = q} + {p <> q})
                   (x, y) (embed_coords (image.Rect img))) as [Hin|Hout].
  - apply In_nth_error in Hin. destruct Hin as [k Hk].
    destruct (Nat.lt_ge_cases (3 * k) (length bits)) as [Hlt|Hge].
    + left. exists k. auto.
    + right. rewrite (embedded_nth bits img k x y Hk).
      rewrite (skipn_done bits (3 * k) Hge). reflexivity.
  - right. apply embedded_outside. exact Hout.
Qed.

(** The result of [embedSecret] on a receiver with a mutable image. *)
Lemma embedSecret_cases (loaded : option image.Image) (type : gostring)
      (bits : list Z) (img : image.RGBA) :
  let s := mkStegImage loaded type bits (Some img) in
  embedSecret s
  = if capacity_bound (image.Rect img) <? Z.of_nat (length bits)
    then (s, Err CapacityExceeded)
    else (set_newImg s (embedded bits img), Ok tt).
Proof.
  intros s.
  destruct (Z.ltb_spec (capacity_bound (image.Rect img)) (Z.of_nat (length bits))).
  - apply (embedSecret_fails s img); [reflexivity | assumption].
  - apply (embedSecret_succeeds s img); [reflexivity | assumption].
Qed.

Lemma write_channels_near (c : color.RGBA) (bs : list Z) :
  Z.abs (u8 (color.R c) - u8 (color.R (write_channels c bs))) <= 1
  /\ Z.abs (u8 (color.G c) - u8 (color.G (write_channels c bs))) <= 1
  /\ Z.abs (u8 (color.B c) - u8 (color.B (write_channels c bs))) <= 1
  /\ color.A (write_channels c bs) = color.A c.
Proof.
  assert (Z0 : forall v, Z.abs (v - v) <= 1) by (intros; lia).
  destruct bs as [|b0 [|b1 [|b2 bs]]]; cbn [write_channels color.R color.G color.B color.A];
    repeat split; auto using force_lsb_near.
Qed.

(** [DoStegEmbed] on a freshly loaded image. *)
Lemma DoStegEmbed_loaded (img : image.Image) (secret : gostring) :
  let m := image.draw_Over_new img in
  let bits := map digit_bit (stringToBinary (secret ++ stopStegConst)) in
  let s1 := mkStegImage (Some img) (str "png") bits (Some m) in
  DoStegEmbed secret (LoadImage img)
  = if capacity_bound (image.Bounds img) <? Z.of_nat (length bits)
    then (s1, Err CapacityExceeded)
    else (set_newImg s1 (embedded bits m), Ok tt).
Proof.
  intros m bits s1. unfold DoStegEmbed, bind, createMutableImage, LoadImage.
  cbn [imgLoaded]. rewrite loadSecret_total.
  apply (embedSecret_cases (Some img) (str "png") bits m).
Qed.

Lemma serialised_ascii (secret : gostring) :
  forallb is_ascii secret = true ->
  map digit_bit (stringToBinary (secret ++ stopStegConst))
  = string_bits (secret ++ stopStegConst).
Proof.
  intros H.
  pose proof (loadSecret_ascii secret emptyStegImage H) as E.
  rewrite loadSecret_total in E. inversion E. reflexivity.
Qed.

End EmbedClaims.

(** C5.  Writing one payload bit forces the low bit of the channel's 8-bit
    value to that bit (0 clears it, anything else sets it) and keeps the
    seven bits above it; so after [embedSecret] every red, green and blue
    channel of every pixel differs from the source by at most 1. *)
Theorem C5_low_bit_write_is_bounded :
  (forall i bit : Z,
      let v := to_uint8 i in
      let r := manipulateLSB i bit in
      Z.testbit (u8 r) 0 = negb (bit =? 0)
      /\ Z.shiftr (u8 r) 1 = Z.shiftr (u8 v) 1
      /\ Z.abs (u8 v - u8 r) <= 1)
  /\ (forall (loaded : option image.Image) (type : gostring)
             (bits : list Z) (img : image.RGBA),
         exists out,
           newImg (fst (embedSecret (mkStegImage loaded type bits (Some img))))
           = Some out
           /\ forall x y,
               Z.abs (u8 (color.R (image.RGBA_At img x y))
                      - u8 (color.R (image.RGBA_At out x y))) <= 1
               /\ Z.abs (u8 (color.G (image.RGBA_At img x y))
                         - u8 (color.G (image.RGBA_At out x y))) <= 1
               /\ Z.abs (u8 (color.B (image.RGBA_At img x y))
                         - u8 (color.B (image.RGBA_At out x y))) <= 1).
Proof.
  split.
  - intros i bit v r. unfold r, v. rewrite manipulateLSB_force.
    split; [apply force_lsb_testbit0|].
    split; [|apply force_lsb_near].
    rewrite !Z.shiftr_div_pow2 by lia. apply force_lsb_high.
  - intros loaded type bits img. rewrite embedSecret_cases.
    destruct (capacity_bound (image.Rect img) <? Z.of_nat (length bits)).
    + exists img. split; [reflexivity|]. intros x y.
      repeat split; rewrite Z.sub_diag; simpl; lia.
    + exists (embedded bits img). split; [reflexivity|]. intros x y.
      destruct (embedded_pixel bits img x y) as [bs ->].
      destruct (write_channels_near (image.RGBA_At img x y) bs) as (Hr & Hg & Hb & _).
      auto.
Qed.

(** C9.  [DoStegEmbed] on a receiver without a loaded image returns the
    error "no image loaded" and leaves the receiver as it was: nothing is
    serialised, no mutable image is created, no capacity is checked. *)
Theorem C9_embed_without_image :
  forall (type : gostring) (bits : list Z) (mutable : option image.RGBA)
         (secret : gostring),
    let s := mkStegImage None type bits mutable in
    DoStegEmbed secret s = (s, Err NoImageLoaded)
    /\ createMutableImage s = (s, Err NoImageLoaded)
    /\ error_message NoImageLoaded = "no image loaded"%string.
Proof.
  intros type bits mutable secret s. repeat split.
Qed.

(** C10.  After [embedSecret] the alpha of every pixel is the source
    pixel's 16-bit alpha brought back to 8 bits, which is the alpha the
    source held, whatever the bits; a pixel the traversal did not visit
    with bits left keeps all four channels.  Over the whole of
    [DoStegEmbed], the alpha of every pixel within the bounds is the high
    byte of the 16-bit alpha of the loaded image. *)
Theorem C10_alpha_is_preserved :
  (forall (loaded : option image.Image) (type : gostring)
          (bits : list Z) (img : image.RGBA),
      exists out,
        newImg (fst (embedSecret (mkStegImage loaded type bits (Some img))))
        = Some out
        /\ forall x y,
            color.A (image.RGBA_At out x y)
            = to_uint8 (snd (color.RGBA_RGBA (image.RGBA_At img x y)) / 0x101)
            /\ color.A (image.RGBA_At out x y) = color.A (image.RGBA_At img x y)
            /\ (visited bits (image.Rect img) x y
                \/ image.RGBA_At out x y = image.RGBA_At img x y))
  /\ (forall (img : image.Image) (secret : gostring),
         exists out,
           newImg (fst (DoStegEmbed secret (LoadImage img))) = Some out
           /\ forall x y,
               image.In x y (image.Bounds img) = false
               \/ color.A (image.RGBA_At out x y)
                  = to_uint8 (Z.shiftr (snd (image.At img x y)) 8)).
Proof.
  assert (HA : forall bits img x y,
             color.A (image.RGBA_At (embedded bits img) x y)
             = color.A (image.RGBA_At img x y)).
  { intros bits img x y.
    destruct (embedded_pixel bits img x y) as [bs ->].
    apply write_channels_near. }
  split.
  - intros loaded type bits img. rewrite embedSecret_cases.
    destruct (capacity_bound (image.Rect img) <? Z.of_nat (length bits)).
    + exists img. split; [reflexivity|]. intros x y.
      cbn [color.RGBA_RGBA snd]. rewrite to_uint8_widen_div. auto.
    + exists (embedded bits img). split; [reflexivity|]. intros x y.
      cbn [color.RGBA_RGBA snd]. rewrite to_uint8_widen_div.
      split; [apply HA|]. split; [apply HA|].
      apply embedded_visited_or_same.
  - intros img secret. rewrite DoStegEmbed_loaded.
    set (m := image.draw_Over_new img).
    assert (Hm : forall x y,
               image.In x y (image.Bounds img) = false
               \/ color.A (image.RGBA_At m x y)
                  = to_uint8 (Z.shiftr (snd (image.At img x y)) 8)).
    { intros x y. destruct (image.In x y (image.Bounds img)) eqn:E;
        [right | left; reflexivity].
      unfold image.RGBA_At, m. cbn [image.draw_Over_new image.Rect image.Pix].
      rewrite E. destruct (image.At img x y) as [[[r g] b] a]. reflexivity. }
    destruct (capacity_bound (image.Bounds img) <? _).
    + exists m. split; [reflexivity | exact Hm].
    + eexists. split; [reflexivity|]. intros x y. rewrite HA. apply Hm.
Qed.

(** C4.  When the capacity check passes, [embedSecret] succeeds and its
    loops act as one traversal of the pixels column by column (x in the
    outer position, y in the inner one, both ascending, upper bounds
    excluded): pixel number [k] of that order receives bits [3k], [3k+1],
    [3k+2] in red, green, blue as far as bits remain; the loops consume
    every bit that fits and then stop; a pixel that is not reached with
    bits left, inside or outside the bounds, is the source pixel. *)
Theorem C4_embed_traversal :
  forall (s : StegImage) (img : image.RGBA),
    newImg s = Some img ->
    Z.of_nat (length (secretBits s)) <= capacity_bound (image.Rect img) ->
    let bits := secretBits s in
    let b := image.Rect img in
    let nx := Z.to_nat (maxX b - minX b) in
    let ny := Z.to_nat (maxY b - minY b) in
    let coords := flat_map (fun x => map (fun y => (x, y)) (zrange (minY b) ny))
                           (zrange (minX b) nx) in
    exists out,
      embedSecret s = (set_newImg s out, Ok tt)
      /\ image.Rect out = b
      /\ map (fun p => image.RGBA_At out (fst p) (snd p)) coords
         = embed_colors (map (fun p => image.RGBA_At img (fst p) (snd p)) coords) bits
      /\ (forall k, (k < nx * ny)%nat ->
            nth_error coords k
            = Some (minX b + Z.of_nat (k / ny), minY b + Z.of_nat (k mod ny)))
      /\ snd (embed_loop_x bits nx b (minX b) (img, O))
         = Nat.min (3 * (nx * ny)) (length bits)
      /\ (forall x y,
            (exists k, nth_error coords k = Some (x, y) /\ (3 * k < length bits)%nat)
            \/ image.RGBA_At out x y = image.RGBA_At img x y).
Proof.
  intros s img Hn Hc bits b nx ny coords.
  exists (embedded bits img).
  split; [apply embedSecret_succeeds; assumption|].
  split; [apply embedded_Rect|].
  split.
  { rewrite (embedded_run bits img coords O); [reflexivity|].
    intros j x y Hj. exact Hj. }
  split; [intros k Hk; apply grid_nth; exact Hk|].
  split.
  { unfold b. rewrite embed_loop_x_walk.
    rewrite walk_index by lia.
    rewrite grid_length, !zrange_length. reflexivity. }
  intros x y. apply embedded_visited_or_same.
Qed.

(** A 2x2 buffer, with four bits to embed: the first pixel takes three of
    them, the second the last one. *)
Lemma C4_embed_traversal_witness :
  let img := image.draw_Over_new (solid (rect 0 0 2 2) opaque_black) in
  let s := mkStegImage None [] [1; 0; 1; 1] (Some img) in
  exists out,
    embedSecret s = (set_newImg s out, Ok tt)
    /\ image.RGBA_At out 0 0 = color.mkRGBA x01 x00 x01 xff
    /\ image.RGBA_At out 0 1 = color.mkRGBA x01 x00 x00 xff
    /\ image.RGBA_At out 1 0 = color.mkRGBA x00 x00 x00 xff.
Proof.
  intros img s.
  destruct (C4_embed_traversal s img eq_refl) as (out & He & _ & Hm & _).
  - vm_compute. discriminate.
  - exists out. split; [exact He|].
    cbv beta iota zeta in Hm.
    change (minX (image.Rect img)) with 0 in Hm.
    change (minY (image.Rect img)) with 0 in Hm.
    change (maxX (image.Rect img)) with 2 in Hm.
    change (maxY (image.Rect img)) with 2 in Hm.
    cbn [Z.sub Z.opp Z.add Z.pos_sub Pos.pred_double Z.to_nat Pos.to_nat
         Pos.iter_op Nat.add zrange seq map flat_map app fst snd Z.of_nat
         Pos.of_succ_nat Pos.succ embed_colors] in Hm.
    inversion Hm as [[H00 H01 H10 H11]].
    rewrite H00, H01, H10. repeat split.
Defined.

(* ================================================================== *)
(** * The capacity check                                              *)
(* ================================================================== *)

Section CapacityCheck.

Lemma to_int_small (z : Z) : - 2 ^ 63 <= z < 2 ^ 63 -> to_int z = z.
Proof.
  intros H. unfold to_int. rewrite Z.mod_small by lia. lia.
Qed.

(** For a buffer whose minimum corner is the origin, the bound of the
    check is the capacity. *)
Lemma capacity_bound_origin (b : image.Rectangle) :
  minX b = 0 -> minY b = 0 ->
  0 <= maxX b -> 0 <= maxY b -> maxX b * maxY b * 3 < 2 ^ 63 ->
  capacity_bound b = capacity b.
Proof.
  intros Hx Hy H0x H0y Hs.
  unfold capacity_bound, capacity, image.Dx, image.Dy.
  fold (minX b) (minY b) (maxX b) (maxY b). rewrite Hx, Hy, !Z.sub_0_r.
  assert (0 <= maxX b * maxY b) by (apply Z.mul_nonneg_nonneg; assumption).
  rewrite (to_int_small (maxX b * maxY b)) by lia.
  apply to_int_small. lia.
Qed.

(** There, [embedSecret] fails exactly when the bits exceed the capacity,
    and a failure leaves the receiver, and with it every pixel, as it
    was. *)
Lemma embedSecret_origin (loaded : option image.Image) (type : gostring)
      (bits : list Z) (img : image.RGBA) :
  let b := image.Rect img in
  let s := mkStegImage loaded type bits (Some img) in
  minX b = 0 -> minY b = 0 ->
  0 <= maxX b -> 0 <= maxY b -> maxX b * maxY b * 3 < 2 ^ 63 ->
  (capacity b < Z.of_nat (length bits) <->
   snd (embedSecret s) = Err CapacityExceeded)
  /\ (snd (embedSecret s) = Err CapacityExceeded -> fst (embedSecret s) = s).
Proof.
  intros b s Hx Hy H0x H0y Hs.
  unfold s. rewrite embedSecret_cases. fold b.
  rewrite (capacity_bound_origin b Hx Hy H0x H0y Hs).
  destruct (Z.ltb_spec (capacity b) (Z.of_nat (length bits))) as [H|H];
    cbn [fst snd]; split; try split; intros; try reflexivity;
    try discriminate; try lia.
Qed.

(** The scenario of the 4x4 black image and the secret "Karl": 136 bits
    against 48. *)
Lemma karl_in_4x4 :
  let img := solid (rect 0 0 4 4) opaque_black in
  let r := DoStegEmbed (str "Karl") (LoadImage img) in
  Z.of_nat (length (secretBits (fst r))) = 136
  /\ capacity (image.Bounds img) = 48
  /\ snd r = Err CapacityExceeded
  /\ newImg (fst r) = Some (image.draw_Over_new img).
Proof. vm_compute. repeat split. Qed.

End CapacityCheck.

(** C3.  The bound of the check is [Max.X * Max.Y * 3], which is the
    capacity only for a buffer whose minimum corner is the origin.  On the
    buffer with bounds (10,0)-(11,40), one column of 40 pixels, the
    capacity is 120 bits; the 128 bits of "abc" plus the sentinel pass
    the check, since 11 * 40 * 3 = 1320, and [DoStegEmbed] returns no
    error. *)
Theorem C3_capacity_check_on_offset_bounds :
  let img := solid (rect 10 0 11 40) opaque_black in
  let r := DoStegEmbed (str "abc") (LoadImage img) in
  capacity (image.Bounds img) = 120
  /\ Z.of_nat (length (secretBits (fst r))) = 128
  /\ capacity_bound (image.Bounds img) = 1320
  /\ snd r = Ok tt.
Proof. vm_compute. repeat split. Qed.

(* ================================================================== *)
(** * Serialisation of the secret                                     *)
(* ================================================================== *)

Section SerialiseClaims.

(** The bits of a byte are the digits of its value, most significant
    first. *)
Lemma msb_value_byte_bits (b : byte) : msb_value (byte_bits b) = u8 b.
Proof. destruct b; reflexivity. Qed.

Lemma stopStegConst_length : length stopStegConst = 13%nat.
Proof. reflexivity. Qed.

End SerialiseClaims.

(** C6, as stated, fails on a secret with a character outside ASCII: the
    two bytes C4 80 are the one character U+0100, which [stringToBinary]
    prints with nine digits, so the stream has 113 bits: not a multiple of
    8, not 8 * (2 + 13), and not the bits of the bytes. *)
Lemma C6_counterexample :
  let secret := [xc4; x80] in
  let bits := secretBits (fst (loadSecret secret emptyStegImage)) in
  length bits = 113%nat
  /\ (length bits mod 8)%nat <> O
  /\ length bits <> (8 * (length secret + 13))%nat
  /\ bits <> string_bits (secret ++ stopStegConst).
Proof.
  vm_compute. repeat split; discriminate.
Qed.

(** C6, amended.  For every secret of ASCII characters, [loadSecret]
    succeeds and stores the bit stream of the bytes of the secret followed
    by the sentinel "##STOP_STEG##", 8 bits per byte, most significant bit
    first; its length is 8 * (len(secret) + 13), a multiple of 8. *)
Theorem C6_serialisation_of_ascii :
  forall (secret : gostring) (s : StegImage),
    forallb is_ascii secret = true ->
    let bits := flat_map byte_bits (secret ++ str "##STOP_STEG##") in
    loadSecret secret s = (set_secretBits s bits, Ok tt)
    /\ (forall b : byte,
           byte_bits b
           = map (fun k => Z.b2z (Z.testbit (u8 b) k)) [7; 6; 5; 4; 3; 2; 1; 0]
           /\ msb_value (byte_bits b) = u8 b)
    /\ length bits = (8 * (length secret + 13))%nat
    /\ (length bits mod 8)%nat = O.
Proof.
  intros secret s H bits.
  assert (L : length bits = (8 * (length secret + 13))%nat).
  { unfold bits. fold (string_bits (secret ++ str "##STOP_STEG##")).
    rewrite string_bits_length, length_app. reflexivity. }
  split; [apply loadSecret_ascii; exact H|].
  split; [intros b; split; [reflexivity | apply msb_value_byte_bits]|].
  split; [exact L|].
  rewrite L, Nat.mul_comm. apply Nat.Div0.mod_mul.
Qed.

Lemma C6_serialisation_of_ascii_witness :
  loadSecret (str "Karl") emptyStegImage
  = (set_secretBits emptyStegImage
       (flat_map byte_bits (str "Karl" ++ str "##STOP_STEG##")), Ok tt)
  /\ length (flat_map byte_bits (str "Karl" ++ str "##STOP_STEG##")) = 136%nat.
Proof.
  destruct (C6_serialisation_of_ascii (str "Karl") emptyStegImage eq_refl)
    as (H1 & _ & H3 & _).
  split; [exact H1 | exact H3].
Defined.

(* ================================================================== *)
(** * The extraction operation                                        *)
(* ================================================================== *)

Section ExtractClaims.

Lemma zrange_inclusive (lo hi : Z) :
  lo <= hi ->
  zrange lo (Z.to_nat (hi - lo + 1)) = zrange lo (Z.to_nat (hi - lo)) ++ [hi].
Proof.
  intros H. replace (Z.to_nat (hi - lo + 1)) with (S (Z.to_nat (hi - lo))) by lia.
  rewrite zrange_snoc. f_equal. f_equal. lia.
Qed.

Lemma scan_coords_inclusive (b : image.Rectangle) :
  minX b <= maxX b -> minY b <= maxY b ->
  scan_coords b
  = grid (zrange (minX b) (Z.to_nat (maxX b - minX b)) ++ [maxX b])
         (zrange (minY b) (Z.to_nat (maxY b - minY b)) ++ [maxY b]).
Proof.
  intros Hx Hy. unfold scan_coords, image.Dx, image.Dy.
  fold (minX b) (minY b) (maxX b) (maxY b).
  rewrite !zrange_inclusive by assumption. reflexivity.
Qed.


Lemma DoStegExtract_getSecretString (growcap : nat -> nat -> nat)
      (s : StegImage) :
  DoStegExtract growcap s = getSecretString growcap s.
Proof.
  unfold DoStegExtract, bind, ret.
  destruct (getSecretString growcap s) as [s' [v|e|p]]; reflexivity.
Qed.

Lemma scanBits_Ok_elts (growcap : nat -> nat -> nat) (img : image.Image)
      (bitsOut : slice) :
  scanBits growcap img = Ok bitsOut -> elts bitsOut = scan_bits img.
Proof.
  unfold scanBits. destruct (_ <? 0); [discriminate|].
  intros E. inversion E. rewrite loop_x_elts. reflexivity.
Qed.

Lemma firstn_repeat_le (A : Type) (x : A) (k m : nat) :
  (k <= m)%nat -> firstn k (repeat x m) = repeat x k.
Proof.
  revert m. induction k as [|k IH]; intros m H; [reflexivity|].
  destruct m as [|m]; [lia|]. simpl. f_equal. apply IH. lia.
Qed.



End ExtractClaims.

(** C2.  The two loops of [getSecretString] visit the columns of ascending
    x, each in ascending y, as the embedding does, but up to and including
    the maximum bound on both axes: where the loops of [embedSecret] walk
    the columns [xs] and rows [ys], the scan covers [xs ++ [Max.X]] and
    [ys ++ [Max.Y]], one more column and one more row.  For every visited
    pixel it appends three bits, for red, green and blue in this order,
    each 0 for an even channel value and 1 for an odd one; alpha
    contributes nothing. *)
Theorem C2_extract_traversal :
  forall (growcap : nat -> nat -> nat) (img : image.Image),
    let b := image.Bounds img in
    minX b <= maxX b -> minY b <= maxY b ->
    0 <= to_int (maxX b * maxY b) ->
    let xs := zrange (minX b) (Z.to_nat (maxX b - minX b)) in
    let ys := zrange (minY b) (Z.to_nat (maxY b - minY b)) in
    let bit := fun v : Z => if Z.even v then 0 else 1 in
    exists c,
      scanBits growcap img
      = Ok (mkSlice
              (flat_map (fun p => let '(r, g, bl, _) := image.At img (fst p) (snd p) in
                                  [bit r; bit g; bit bl])
                        (flat_map (fun x => map (fun y => (x, y)) (ys ++ [maxY b]))
                                  (xs ++ [maxX b])))
              c)
      /\ (forall (bits : list Z) (st : image.RGBA * nat),
            embed_loop_x bits (Z.to_nat (maxX b - minX b)) b (minX b) st
            = walk bits (flat_map (fun x => map (fun y => (x, y)) ys) xs) st).
Proof.
  intros growcap img b Hx Hy Hc xs ys bit.
  destruct (scanBits_elts growcap img Hc) as [c E].
  exists c. split; [|intros bits st; apply embed_loop_x_walk].
  rewrite E. f_equal. f_equal. unfold scan_bits. fold b.
  rewrite (scan_coords_inclusive b Hx Hy). reflexivity.
Qed.

Lemma C2_extract_traversal_witness :
  exists c,
    scanBits exact_grow (solid (rect 0 0 1 1) (0x0101, 0, 0xffff, 0xffff))
    = Ok (mkSlice [1; 0; 1; 0; 0; 0; 0; 0; 0; 0; 0; 0] c).
Proof.
  destruct (C2_extract_traversal exact_grow
              (solid (rect 0 0 1 1) (0x0101, 0, 0xffff, 0xffff)))
    as (c & E & _).
  - vm_compute. discriminate.
  - vm_compute. discriminate.
  - vm_compute. discriminate.
  - exists c. exact E.
Defined.



(** With spare capacity the same shortfall does not panic: the slice
    reads the zeros of the backing array.  18 bits with capacity 32, as
    doubling leaves it for a 1x2 image. *)
Lemma spare_capacity_pads :
  exists bitsOut,
    scanBits double_grow (solid (rect 0 0 1 2) opaque_black) = Ok bitsOut
    /\ len bitsOut = 18%nat /\ cap bitsOut = 32%nat
    /\ bitsToString bitsOut = Ok [x00; x00; x00].
Proof.
  eexists. split; [reflexivity|]. repeat split.
Qed.



(* ================================================================== *)
(** * Embedding, then extracting                                      *)
(* ================================================================== *)

Section RoundTrip.

Lemma flat_map_map (A B C : Type) (f : B -> list C) (g : A -> B) (l : list A) :
  flat_map f (map g l) = flat_map (fun a => f (g a)) l.
Proof.
  induction l as [|a l IH]; [reflexivity|].
  simpl. rewrite IH. reflexivity.
Qed.







End RoundTrip.




(** The round trip beyond the first column: a 7x6 buffer has room for the
    112 bits of "A" and the sentinel, which fill columns 0 to 6; the scan
    reads 7 pixels per column, and the sentinel is not found. *)
Lemma round_trip_breaks_across_columns :
  let img := solid (rect 0 0 7 6) opaque_black in
  let r := DoStegEmbed (str "A") (LoadImage img) in
  snd r = Ok tt
  /\ snd (DoStegExtract exact_grow (reload (fst r))) = Err SentinelNotFound
  /\ snd (DoStegExtract double_grow (reload (fst r))) = Err SentinelNotFound.
Proof. vm_compute. repeat split. Qed.

(** A secret that ends with the beginning of the sentinel: the appended
    sentinel completes an earlier occurrence. *)
Lemma round_trip_sentinel_overlap :
  let img := solid (rect 0 0 1 71) opaque_black in
  let r := DoStegEmbed (str "##STOP_STEG") (LoadImage img) in
  snd r = Ok tt
  /\ snd (DoStegExtract exact_grow (reload (fst r))) = Ok [].
Proof. vm_compute. repeat split. Qed.

(* ================================================================== *)
(** * Further properties: serialisation                               *)
(* ================================================================== *)

Section SerialiseMore.

Lemma is_cont_ascii (c : byte) : is_ascii c = true -> is_cont c = false.
Proof.
  unfold is_ascii, is_cont. intros H. apply Z.ltb_lt in H.
  destruct (Z.leb_spec 128 (u8 c)); [lia | reflexivity].
Qed.

(** ASCII text appended to any bytes is iterated byte by byte, and does not
    change how the bytes before it are iterated. *)
Lemma range_string_app_ascii_upto (n : nat) :
  forall s t : gostring,
    (length s <= n)%nat ->
    forallb is_ascii t = true ->
    range_string (s ++ t) = range_string s ++ map u8 t.
Proof.
  induction n as [|n IH]; intros s t Hs Ht.
  - destruct s; [apply range_string_ascii, Ht | simpl in Hs; lia].
  - destruct s as [|b0 t0]; [apply range_string_ascii, Ht|].
    simpl in Hs.
    assert (IH0 : range_string (t0 ++ t) = range_string t0 ++ map u8 t)
      by (apply IH; [lia | exact Ht]).
    assert (Hhd : forall c t', t = c :: t' -> is_cont c = false).
    { intros c t' E. subst t. simpl in Ht. apply andb_true_iff in Ht.
      apply is_cont_ascii, Ht. }
    rewrite <- app_comm_cons. cbn [range_string]. rewrite IH0.
    destruct (u8 b0 <? 128); [reflexivity|].
    destruct ((192 <=? u8 b0) && (u8 b0 <? 224)).
    { destruct t0 as [|b1 t1]; cbn [app].
      - destruct t as [|c t']; [reflexivity|].
        rewrite (Hhd c t' eq_refl). reflexivity.
      - destruct (is_cont b1 && (127 <? rune2 (u8 b0) b1)); [|reflexivity].
        rewrite (IH t1 t) by (simpl in Hs; try lia; exact Ht). reflexivity. }
    destruct ((224 <=? u8 b0) && (u8 b0 <? 240)).
    { destruct t0 as [|b1 [|b2 t2]]; cbn [app].
      - destruct t as [|c [|c' t']]; try reflexivity.
        rewrite (is_cont_ascii c'); [rewrite andb_false_r; reflexivity|].
        simpl in Ht. apply andb_true_iff in Ht. destruct Ht as [_ Ht].
        apply andb_true_iff in Ht. apply Ht.
      - destruct t as [|c t']; [reflexivity|].
        rewrite (Hhd c t' eq_refl), andb_false_r. reflexivity.
      - match goal with |- context [if ?c then _ else _] => destruct c end;
          [|reflexivity].
        rewrite (IH t2 t) by (simpl in Hs; try lia; exact Ht). reflexivity. }
    destruct ((240 <=? u8 b0) && (u8 b0 <? 248)); [|reflexivity].
    destruct t0 as [|b1 [|b2 [|b3 t3]]]; cbn [app].
    + destruct t as [|c [|c' [|c'' t']]]; try reflexivity.
      rewrite (Hhd c _ eq_refl). reflexivity.
    + destruct t as [|c [|c' t']]; try reflexivity.
      rewrite (Hhd c _ eq_refl), andb_false_r. reflexivity.
    + destruct t as [|c t']; [reflexivity|].
      rewrite (Hhd c t' eq_refl), andb_false_r. reflexivity.
    + match goal with |- context [if ?c then _ else _] => destruct c end;
        [|reflexivity].
      rewrite (IH t3 t) by (simpl in Hs; try lia; exact Ht). reflexivity.
Qed.

Lemma range_string_app_ascii (s t : gostring) :
  forallb is_ascii t = true ->
  range_string (s ++ t) = range_string s ++ map u8 t.
Proof. apply (range_string_app_ascii_upto (length s)). lia. Qed.

End SerialiseMore.

Section SerialiseMoreLemmas.

Lemma digit_bit_01 (c : byte) : is_bit_digit c = true -> is01 (digit_bit c).
Proof.
  unfold is_bit_digit. intros H. apply orb_true_iff in H.
  destruct H as [H|H]; apply Byte.byte_dec_bl in H; subst; [left | right];
    reflexivity.
Qed.

Lemma digits_01 (d : gostring) :
  forallb is_bit_digit d = true -> Forall is01 (map digit_bit d).
Proof.
  induction d as [|c d IH]; intros H; [constructor|].
  simpl in H. apply andb_true_iff in H. destruct H as [Hc Hd].
  constructor; [apply digit_bit_01, Hc | apply IH, Hd].
Qed.

Lemma map_concat_flat_map (rs : list Z) :
  map digit_bit (concat (map fmt_08b rs)) = flat_map rune_bits rs.
Proof.
  induction rs as [|r rs IH]; [reflexivity|].
  cbn [map concat flat_map]. rewrite map_app, IH. reflexivity.
Qed.

Lemma pad8_length (d : list byte) : (8 <= length (pad8 d))%nat.
Proof. unfold pad8. rewrite length_app, repeat_length. lia. Qed.

Lemma rune_bits_length_ge (r : Z) : (8 <= length (rune_bits r))%nat.
Proof.
  unfold rune_bits. rewrite length_map.
  destruct r as [|p|p]; unfold fmt_08b.
  - apply pad8_length.
  - apply pad8_length.
  - simpl length. pose proof (pad8_length (rev (binary_rev p))). lia.
Qed.

Lemma rune_bits_byte (b : byte) : rune_bits (u8 b) = byte_bits b.
Proof. unfold rune_bits. apply fmt_08b_byte. Qed.

Lemma rune_bits_small (r : Z) : 0 <= r < 256 -> length (rune_bits r) = 8%nat.
Proof.
  intros H. replace r with (u8 (to_uint8 r)).
  - rewrite rune_bits_byte. reflexivity.
  - rewrite u8_to_uint8. apply Z.mod_small. exact H.
Qed.

Lemma flat_map_length_ge (A B : Type) (f : A -> list B) (k : nat) (l : list A) :
  (forall a, (k <= length (f a))%nat) ->
  (k * length l <= length (flat_map f l))%nat.
Proof.
  intros H. induction l as [|a l IH]; simpl; [lia|].
  rewrite length_app. specialize (H a). lia.
Qed.

Lemma flat_map_length_eq (A B : Type) (f : A -> list B) (k : nat) (l : list A) :
  Forall (fun a => length (f a) = k) l ->
  length (flat_map f l) = (k * length l)%nat.
Proof.
  induction 1 as [|a l Ha Hl IH]; simpl; [lia|].
  rewrite length_app, Ha, IH. lia.
Qed.

(** What [loadSecret] stores, for any secret. *)
Lemma loadSecret_stream (secret : gostring) :
  map digit_bit (stringToBinary (secret ++ stopStegConst))
  = flat_map rune_bits (range_string secret) ++ string_bits stopStegConst.
Proof.
  rewrite stringToBinary_concat, map_concat_flat_map.
  rewrite range_string_app_ascii by reflexivity.
  rewrite flat_map_app. reflexivity.
Qed.

End SerialiseMoreLemmas.

(** X1.  [loadSecret] succeeds on every secret, ASCII or not, and changes
    nothing but [secretBits]: the [strconv.Atoi] error path of
    [stringsToInts] is never taken.  The stored stream holds only the
    values 0 and 1; it is the digits of the runes of the secret, at least 8
    per rune, followed by the 104 bits of the sentinel, which the bytes
    before it cannot absorb into a multi-byte character. *)
Theorem X1_loadSecret_never_fails :
  forall (secret : gostring) (s : StegImage),
  exists bits,
    loadSecret secret s = (set_secretBits s bits, Ok tt)
    /\ bits = flat_map rune_bits (range_string secret)
              ++ string_bits stopStegConst
    /\ Forall is01 bits
    /\ length (string_bits stopStegConst) = 104%nat
    /\ (8 * (length (range_string secret) + 13) <= length bits)%nat.
Proof.
  intros secret s. eexists. split; [apply loadSecret_total|].
  split; [apply loadSecret_stream|].
  split; [apply digits_01, stringToBinary_digits|].
  split; [reflexivity|].
  rewrite loadSecret_stream, length_app.
  pose proof (flat_map_length_ge _ _ rune_bits 8 (range_string secret)
                rune_bits_length_ge).
  change (length (string_bits stopStegConst)) with 104%nat. lia.
Qed.

(** X2.  For a secret all of whose characters have a code point below 256
    (ASCII, or Latin-1 written in UTF-8), the stream has exactly 8 bits per
    character, not per byte, plus the 104 bits of the sentinel. *)
Theorem X2_eight_bits_per_small_rune :
  forall (secret : gostring) (s : StegImage),
    forallb (fun r => r <? 256) (range_string secret) = true ->
    length (secretBits (fst (loadSecret secret s)))
    = (8 * (length (range_string secret) + 13))%nat.
Proof.
  intros secret s H. rewrite loadSecret_total. cbn [fst secretBits set_secretBits].
  rewrite loadSecret_stream, length_app.
  rewrite (flat_map_length_eq _ _ rune_bits 8).
  - change (length (string_bits stopStegConst)) with 104%nat. lia.
  - pose proof (range_string_nonneg secret) as Hn.
    rewrite forallb_forall in H. rewrite Forall_forall in *.
    intros r Hr. apply rune_bits_small. split; [apply Hn, Hr|].
    apply Z.ltb_lt, H, Hr.
Qed.

(** The two bytes C3 A9 are the one character U+00E9: 8 bits. *)
Lemma X2_eight_bits_per_small_rune_witness :
  length (secretBits (fst (loadSecret [xc3; xa9] emptyStegImage))) = 112%nat.
Proof.
  apply (X2_eight_bits_per_small_rune [xc3; xa9] emptyStegImage).
  reflexivity.
Defined.



(* ================================================================== *)
(** * Further properties: single bits and characters                  *)
(* ================================================================== *)

Section BitsMore.

Lemma getBitsFromRGB_from (values : list Z) :
  forall acc,
    fold_left (fun bitsOut v =>
                 if v mod 2 =? 0 then bitsOut ++ [0] else bitsOut ++ [1])
              values acc
    = acc ++ map parity values.
Proof.
  induction values as [|v values IH]; intros acc.
  - simpl. rewrite app_nil_r. reflexivity.
  - cbn [fold_left map]. rewrite IH, <- (parity_mod v).
    destruct (v mod 2 =? 0); rewrite <- app_assoc; reflexivity.
Qed.

Lemma parity_01 (v : Z) : is01 (parity v).
Proof. unfold parity, is01. destruct (Z.even v); auto. Qed.

Lemma force_lsb_twice (v : byte) (a b : Z) :
  force_lsb (force_lsb v a) b = force_lsb v b.
Proof.
  apply u8_inj.
  rewrite (u8_force_lsb (force_lsb v a) b), force_lsb_high, <- u8_force_lsb.
  reflexivity.
Qed.

Lemma to_int8_small (d : Z) : 0 <= d < 128 -> to_int8 d = d.
Proof. intros H. unfold to_int8. rewrite Z.mod_small by lia. lia. Qed.

Lemma to_int8_large (d : Z) : 128 <= d < 256 -> to_int8 d = d - 256.
Proof.
  intros H. unfold to_int8.
  replace (d + 128) with ((d - 128) + 1 * 256) by lia.
  rewrite Z.mod_add by lia. rewrite Z.mod_small by lia. lia.
Qed.

Lemma checkColourDifference_iff (x y : byte) :
  checkColourDifference x y = None
  <-> (u8 x - u8 y) mod 256 = 0 \/ (u8 x - u8 y) mod 256 = 1
      \/ (u8 x - u8 y) mod 256 = 255.
Proof.
  unfold checkColourDifference. rewrite u8_to_uint8.
  pose proof (Z.mod_pos_bound (u8 x - u8 y) 256 ltac:(lia)) as Hd.
  set (d := (u8 x - u8 y) mod 256) in *.
  destruct (Z.lt_ge_cases d 128) as [Hs|Hl].
  - rewrite (to_int8_small d) by lia.
    destruct (Z.eqb_spec d 0), (Z.eqb_spec d (-1)), (Z.eqb_spec d 1);
      cbn [orb]; split; intros; try reflexivity; try discriminate; lia.
  - rewrite (to_int8_large d) by lia.
    destruct (Z.eqb_spec (d - 256) 0), (Z.eqb_spec (d - 256) (-1)),
             (Z.eqb_spec (d - 256) 1);
      cbn [orb]; split; intros; try reflexivity; try discriminate; lia.
Qed.

Lemma checkColourDifference_force (v : byte) (bit : Z) :
  checkColourDifference v (force_lsb v bit) = None
  /\ checkColourDifference (force_lsb v bit) v = None.
Proof.
  pose proof (u8_force_lsb v bit) as E.
  pose proof (low_bit_range bit) as Hl.
  pose proof (Z.div_mod (u8 v) 2 ltac:(lia)) as Hdm.
  pose proof (Z.mod_pos_bound (u8 v) 2 ltac:(lia)) as Hm.
  assert (D : u8 v - u8 (force_lsb v bit) = 0
              \/ u8 v - u8 (force_lsb v bit) = 1
              \/ u8 v - u8 (force_lsb v bit) = -1) by lia.
  split; apply checkColourDifference_iff.
  - destruct D as [D|[D|D]]; rewrite D; [left | right; left | right; right];
      reflexivity.
  - replace (u8 (force_lsb v bit) - u8 v)
      with (- (u8 v - u8 (force_lsb v bit))) by lia.
    destruct D as [D|[D|D]]; rewrite D; [left | right; right | right; left];
      reflexivity.
Qed.


End BitsMore.

(** X4.  [getBitsFromRGB] returns one bit per value it is given, in
    order, each 0 or 1: 0 for an even value and 1 for an odd one.  No
    values give no bits. *)
Theorem X4_getBitsFromRGB_one_bit_per_value :
  forall values : list Z,
    getBitsFromRGB values = map parity values
    /\ length (getBitsFromRGB values) = length values
    /\ Forall is01 (getBitsFromRGB values).
Proof.
  intros values.
  assert (E : getBitsFromRGB values = map parity values)
    by apply (getBitsFromRGB_from values []).
  rewrite E. split; [reflexivity|]. split; [apply length_map|].
  apply Forall_forall. intros b Hb. apply in_map_iff in Hb.
  destruct Hb as [v [<- _]]. apply parity_01.
Qed.

(** X5.  A bit written with [manipulateLSB] is the bit [getBitsFromRGB]
    reads, from the 8-bit value and from the 16-bit value the colour
    reports: 0 for 0, and 1 for any other bit value.  A second write
    replaces the first: only the last bit written to a channel counts. *)
Theorem X5_written_bit_is_read_back :
  forall i a b : Z,
    getBitsFromRGB [u8 (manipulateLSB i b)] = [if b =? 0 then 0 else 1]
    /\ getBitsFromRGB [color.widen (manipulateLSB i b)]
       = [if b =? 0 then 0 else 1]
    /\ manipulateLSB (u8 (manipulateLSB i a)) b = manipulateLSB i b.
Proof.
  intros i a b. unfold getBitsFromRGB.
  rewrite !(getBitsFromRGB_from _ []). cbn [map app].
  rewrite !manipulateLSB_force, to_uint8_u8, force_lsb_twice.
  rewrite parity_widen. unfold parity at 1.
  rewrite <- Zmod_even, force_lsb_parity. repeat split.
Qed.

(** X6.  [getCharFromBits] reads 8 bits most significant first, counting
    a bit as set only when it is exactly 1; the value is below 256 and is
    turned into a string by a rune conversion, so the result is one byte
    when the first bit is not set and the two bytes of a UTF-8 sequence
    when it is. *)
Theorem X6_getCharFromBits_is_utf8 :
  forall b0 b1 b2 b3 b4 b5 b6 b7 : Z,
    let bits := [b0; b1; b2; b3; b4; b5; b6; b7] in
    let v := msb_value bits in
    getCharFromBits bits = string_of_int v
    /\ 0 <= v < 256
    /\ length (getCharFromBits bits) = (if b0 =? 1 then 2%nat else 1%nat)
    /\ getCharFromBits bits
       = getCharFromBits (map (fun b => if b =? 1 then 1 else 0) bits).
Proof.
  intros b0 b1 b2 b3 b4 b5 b6 b7 bits v. unfold v, bits.
  rewrite !getCharFromBits_msb. unfold msb_value. cbn [map fold_left].
  destruct (b0 =? 1), (b1 =? 1), (b2 =? 1), (b3 =? 1),
           (b4 =? 1), (b5 =? 1), (b6 =? 1), (b7 =? 1);
    vm_compute; repeat split; discriminate.
Qed.

(** X7.  Decoding what was serialised: for an ASCII secret, [bitsToString]
    applied to the bits [loadSecret] stored, in a slice of any sufficient
    capacity, returns the secret followed by the sentinel. *)
Theorem X7_bitsToString_inverts_loadSecret :
  forall (secret : gostring) (s : StegImage) (c : nat),
    forallb is_ascii secret = true ->
    let bits := secretBits (fst (loadSecret secret s)) in
    (length bits <= c)%nat ->
    bitsToString (mkSlice bits c) = Ok (secret ++ stopStegConst).
Proof.
  intros secret s c Ha bits Hc. unfold bits in *.
  rewrite (loadSecret_ascii secret s Ha) in *.
  cbn [fst secretBits set_secretBits] in *.
  rewrite bitsToString_whole.
  - cbn [elts].
    rewrite <- (app_nil_r (string_bits (secret ++ stopStegConst))).
    rewrite text_of_string_bits by (rewrite forallb_app, Ha; reflexivity).
    cbn [text_of_bits]. rewrite app_nil_r. reflexivity.
  - exact Hc.
  - unfold len. cbn [elts]. rewrite string_bits_length, Nat.mul_comm.
    apply Nat.Div0.mod_mul.
Qed.

Lemma X7_bitsToString_inverts_loadSecret_witness :
  bitsToString
    (mkSlice (secretBits (fst (loadSecret (str "Karl") emptyStegImage))) 200)
  = Ok (str "Karl" ++ stopStegConst).
Proof.
  apply (X7_bitsToString_inverts_loadSecret (str "Karl") emptyStegImage 200).
  - reflexivity.
  - apply Nat.leb_le. reflexivity.
Defined.

(** X8.  [checkColourDifference] accepts two channel values exactly when
    their difference modulo 256 is 0, 1 or 255, so it also accepts 0
    against 255; it accepts, in either order, a value and what
    [manipulateLSB] makes of it. *)
Theorem X8_checkColourDifference_accepts_lsb_writes :
  (forall x y : byte,
      checkColourDifference x y = None
      <-> (u8 x - u8 y) mod 256 = 0 \/ (u8 x - u8 y) mod 256 = 1
          \/ (u8 x - u8 y) mod 256 = 255)
  /\ checkColourDifference x00 xff = None
  /\ (forall i bit : Z,
         checkColourDifference (to_uint8 i) (manipulateLSB i bit) = None
         /\ checkColourDifference (manipulateLSB i bit) (to_uint8 i) = None).
Proof.
  split; [apply checkColourDifference_iff|]. split; [reflexivity|].
  intros i bit. rewrite manipulateLSB_force. apply checkColourDifference_force.
Qed.

(* ================================================================== *)
(** * Further properties: the embedding                               *)
(* ================================================================== *)

Section EmbedMore.

Lemma write_channels_twice (c : color.RGBA) (bs1 bs2 : list Z) :
  (length bs1 <= length bs2)%nat ->
  write_channels (write_channels c bs1) bs2 = write_channels c bs2.
Proof.
  intros H.
  destruct bs1 as [|a0 [|a1 [|a2 r1]]]; destruct bs2 as [|c0 [|c1 [|c2 r2]]];
    simpl in H; try lia;
    cbn [write_channels color.R color.G color.B color.A];
    rewrite ?force_lsb_twice; reflexivity.
Qed.


Lemma coords_dec (p : Z * Z) (l : list (Z * Z)) : {List.In p l} + {~ List.In p l}.
Proof.
  apply in_dec. decide equality; apply Z.eq_dec.
Qed.

(** A stream embedded over an earlier, not longer one leaves no trace of
    the earlier one. *)
Lemma embedded_over (bits1 bits2 : list Z) (img : image.RGBA) (x y : Z) :
  (length bits1 <= length bits2)%nat ->
  image.RGBA_At (embedded bits2 (embedded bits1 img)) x y
  = image.RGBA_At (embedded bits2 img) x y.
Proof.
  intros H.
  destruct (coords_dec (x, y) (embed_coords (image.Rect img))) as [Hin|Hout].
  - apply In_nth_error in Hin. destruct Hin as [k Hk].
    rewrite (embedded_nth bits2 (embedded bits1 img) k x y)
      by (rewrite embedded_Rect; exact Hk).
    rewrite (embedded_nth bits1 img k x y Hk).
    rewrite (embedded_nth bits2 img k x y Hk).
    apply write_channels_twice. rewrite !length_skipn. lia.
  - rewrite (embedded_outside bits2 (embedded bits1 img))
      by (rewrite embedded_Rect; exact Hout).
    rewrite (embedded_outside bits1 img x y Hout).
    rewrite (embedded_outside bits2 img x y Hout). reflexivity.
Qed.

Lemma flat_map_ext_in (A B : Type) (f g : A -> list B) (l : list A) :
  (forall a, List.In a l -> f a = g a) -> flat_map f l = flat_map g l.
Proof.
  induction l as [|a l IH]; intros H; [reflexivity|].
  simpl. rewrite (H a) by (left; reflexivity).
  rewrite IH by (intros b Hb; apply H; right; exact Hb). reflexivity.
Qed.

End EmbedMore.

(** X9.  Embedding a second stream into a buffer that already holds a
    stream which is not longer gives, pixel for pixel, the buffer that
    embedding the second stream alone gives: the earlier payload leaves no
    trace, and embedding the same stream twice changes nothing the second
    time. *)
Theorem X9_later_embedding_overrides :
  forall (loaded : option image.Image) (type : gostring)
         (bits1 bits2 : list Z) (img : image.RGBA),
    (length bits1 <= length bits2)%nat ->
    Z.of_nat (length bits2) <= capacity_bound (image.Rect img) ->
    exists out1 out12 out2,
      embedSecret (mkStegImage loaded type bits1 (Some img))
      = (mkStegImage loaded type bits1 (Some out1), Ok tt)
      /\ embedSecret (mkStegImage loaded type bits2 (Some out1))
         = (mkStegImage loaded type bits2 (Some out12), Ok tt)
      /\ embedSecret (mkStegImage loaded type bits2 (Some img))
         = (mkStegImage loaded type bits2 (Some out2), Ok tt)
      /\ forall x y, image.RGBA_At out12 x y = image.RGBA_At out2 x y.
Proof.
  intros loaded type bits1 bits2 img Hlen Hcap.
  exists (embedded bits1 img), (embedded bits2 (embedded bits1 img)),
         (embedded bits2 img).
  rewrite !embedSecret_cases, embedded_Rect.
  destruct (Z.ltb_spec (capacity_bound (image.Rect img))
                       (Z.of_nat (length bits1))); [lia|].
  destruct (Z.ltb_spec (capacity_bound (image.Rect img))
                       (Z.of_nat (length bits2))); [lia|].
  repeat split. intros x y. apply embedded_over. exact Hlen.
Qed.

Lemma X9_later_embedding_overrides_witness :
  let img := image.draw_Over_new (solid (rect 0 0 2 2) opaque_black) in
  exists out1 out12 out2,
    embedSecret (mkStegImage None [] [1; 1] (Some img))
    = (mkStegImage None [] [1; 1] (Some out1), Ok tt)
    /\ embedSecret (mkStegImage None [] [0; 1; 0; 1] (Some out1))
       = (mkStegImage None [] [0; 1; 0; 1] (Some out12), Ok tt)
    /\ embedSecret (mkStegImage None [] [0; 1; 0; 1] (Some img))
       = (mkStegImage None [] [0; 1; 0; 1] (Some out2), Ok tt)
    /\ forall x y, image.RGBA_At out12 x y = image.RGBA_At out2 x y.
Proof.
  intros img.
  apply (X9_later_embedding_overrides None [] [1; 1] [0; 1; 0; 1] img).
  - apply Nat.leb_le. reflexivity.
  - vm_compute. discriminate.
Defined.

(** X10.  What [embedSecret] wrote can be read back in the order it was
    written: when the stream holds only 0 and 1, passes the check and is
    no longer than three bits per pixel of the buffer, the low bits of
    red, green, blue of the pixels, column by column with the upper bounds
    excluded, are the stream followed by the low bits the source had
    beyond it. *)
Theorem X10_embedded_bits_in_embedding_order :
  forall (loaded : option image.Image) (type : gostring)
         (bits : list Z) (img : image.RGBA),
    Forall is01 bits ->
    Z.of_nat (length bits) <= capacity_bound (image.Rect img) ->
    (length bits <= 3 * length (embed_coords (image.Rect img)))%nat ->
    let read := fun m : image.RGBA =>
      flat_map (fun p => getBitsFromRGB
                           [color.widen (color.R (image.RGBA_At m (fst p) (snd p)));
                            color.widen (color.G (image.RGBA_At m (fst p) (snd p)));
                            color.widen (color.B (image.RGBA_At m (fst p) (snd p)))])
               (embed_coords (image.Rect img)) in
    exists out,
      embedSecret (mkStegImage loaded type bits (Some img))
      = (mkStegImage loaded type bits (Some out), Ok tt)
      /\ read out = bits ++ skipn (length bits) (read img).
Proof.
  intros loaded type bits img H01 Hcap Hlen read.
  exists (embedded bits img). rewrite embedSecret_cases.
  destruct (Z.ltb_spec (capacity_bound (image.Rect img))
                       (Z.of_nat (length bits))); [lia|].
  split; [reflexivity|].
  assert (R : forall m, read m
              = flat_map color_bits
                  (map (fun p => image.RGBA_At m (fst p) (snd p))
                       (embed_coords (image.Rect img)))).
  { intros m. unfold read. rewrite flat_map_map.
    apply flat_map_ext_in. intros p _.
    apply (getBitsFromRGB_pixel _ _ _
             (color.widen (color.A (image.RGBA_At m (fst p) (snd p))))). }
  rewrite !R.
  rewrite (embedded_run bits img (embed_coords (image.Rect img)) O)
    by (intros j x y Hj; exact Hj).
  simpl skipn. apply readback; [exact H01|].
  rewrite length_map. exact Hlen.
Qed.

Lemma X10_embedded_bits_in_embedding_order_witness :
  let img := image.draw_Over_new (solid (rect 0 0 2 2) (0x0101, 0x0101, 0x0101, 0xffff)) in
  exists out,
    embedSecret (mkStegImage None [] [0; 1; 0; 1; 0] (Some img))
    = (mkStegImage None [] [0; 1; 0; 1; 0] (Some out), Ok tt)
    /\ flat_map (fun p => getBitsFromRGB
                 [color.widen (color.R (image.RGBA_At out (fst p) (snd p)));
                  color.widen (color.G (image.RGBA_At out (fst p) (snd p)));
                  color.widen (color.B (image.RGBA_At out (fst p) (snd p)))])
              [(0, 0); (0, 1); (1, 0); (1, 1)]
       = [0; 1; 0; 1; 0; 1; 1; 1; 1; 1; 1; 1].
Proof.
  intros img.
  destruct (X10_embedded_bits_in_embedding_order None [] [0; 1; 0; 1; 0] img)
    as (out & He & Hr).
  - repeat (apply Forall_cons;
            [first [left; reflexivity | right; reflexivity]|]).
    apply Forall_nil.
  - vm_compute. discriminate.
  - apply Nat.leb_le. reflexivity.
  - exists out. split; [exact He|]. exact Hr.
Defined.


(* ================================================================== *)
(** * Further properties: [DoStegEmbed]                               *)
(* ================================================================== *)


(** X13.  For an ASCII secret and a loaded image whose bounds start at
    the origin, [DoStegEmbed] succeeds exactly when
    8 * (len(secret) + 13) <= width * height * 3 and fails with "not enough
    pixels to hide secret" exactly when it is greater: a payload equal to
    the capacity is accepted. *)
Theorem X13_capacity_boundary_at_origin :
  forall (img : image.Image) (secret : gostring),
    forallb is_ascii secret = true ->
    let b := image.Bounds img in
    minX b = 0 -> minY b = 0 -> 0 <= maxX b -> 0 <= maxY b ->
    maxX b * maxY b * 3 < 2 ^ 63 ->
    let payload := 8 * (Z.of_nat (length secret) + 13) in
    (snd (DoStegEmbed secret (LoadImage img)) = Ok tt
     <-> payload <= image.Dx b * image.Dy b * 3)
    /\ (snd (DoStegEmbed secret (LoadImage img)) = Err CapacityExceeded
        <-> image.Dx b * image.Dy b * 3 < payload).
Proof.
  intros img secret Ha b Hx Hy H0x H0y H63 payload.
  rewrite DoStegEmbed_loaded, (serialised_ascii secret Ha).
  fold b. rewrite (capacity_bound_origin b Hx Hy H0x H0y H63).
  unfold capacity.
  assert (L : Z.of_nat (length (string_bits (secret ++ stopStegConst)))
              = payload).
  { unfold payload. rewrite string_bits_length, length_app.
    rewrite stopStegConst_length. lia. }
  rewrite L.
  destruct (Z.ltb_spec (image.Dx b * image.Dy b * 3) payload); cbn [snd];
    split; split; intros; try reflexivity; try discriminate; lia.
Qed.

(** 120 bits into the 120 channels of a 5x8 image. *)
Lemma X13_capacity_boundary_at_origin_witness :
  snd (DoStegEmbed (str "ab") (LoadImage (solid (rect 0 0 5 8) opaque_black)))
  = Ok tt.
Proof.
  apply (X13_capacity_boundary_at_origin
           (solid (rect 0 0 5 8) opaque_black) (str "ab")).
  - reflexivity.
  - reflexivity.
  - reflexivity.
  - vm_compute. discriminate.
  - vm_compute. discriminate.
  - vm_compute. reflexivity.
  - vm_compute. discriminate.
Defined.

(* ================================================================== *)
(** * Further properties: the extraction                              *)
(* ================================================================== *)

Section ExtractMore.

(** An occurrence inside a prefix is an occurrence in the whole text, and
    ends within the prefix. *)
Lemma occurs_at_firstn (sep t : gostring) (k j : nat) :
  occurs_at sep (firstn k t) j ->
  occurs_at sep t j /\ (j + length sep <= k)%nat.
Proof.
  intros [E L].
  assert (Lk : (j + length sep <= k)%nat)
    by (rewrite length_firstn in L; lia).
  assert (Lt : (j + length sep <= length t)%nat)
    by (rewrite length_firstn in L; lia).
  split; [|exact Lk]. split; [|exact Lt].
  rewrite skipn_firstn_comm, firstn_firstn in E.
  rewrite Nat.min_l in E by lia. exact E.
Qed.

(** When [getSecretString] returns a secret, it is the text before the
    first occurrence of the sentinel. *)
Lemma getSecretString_Ok (growcap : nat -> nat -> nat) (s s' : StegImage)
      (secret : gostring) :
  getSecretString growcap s = (s', Ok secret) ->
  s' = s
  /\ exists text k,
       first_occurrence stopStegConst text k /\ secret = firstn k text.
Proof.
  unfold getSecretString.
  destruct (imgLoaded s) as [img|]; [|discriminate].
  destruct (scanBits growcap img) as [bitsOut|e|p]; try discriminate.
  destruct (bitsToString bitsOut) as [tmp|e|p]; try discriminate.
  unfold strings_Contains, strings_Split_0.
  destruct (strings_Index tmp stopStegConst) as [k|] eqn:E; [|discriminate].
  intros H. inversion H; subst. split; [reflexivity|].
  exists tmp, k. split; [apply strings_Index_Some, E | reflexivity].
Qed.

(** Images that agree on the parities of red, green and blue give the same
    slices to the scan. *)
Lemma loop_y_parities (growcap : nat -> nat -> nat) (img1 img2 : image.Image) :
  (forall x y, pixel_bits (image.At img1 x y) = pixel_bits (image.At img2 x y)) ->
  forall n x y s,
    getSecretString_loop_y growcap n img1 x y s
    = getSecretString_loop_y growcap n img2 x y s.
Proof.
  intros H n. induction n as [|n IH]; intros x y s; [reflexivity|].
  cbn [getSecretString_loop_y]. specialize (H x y).
  destruct (image.At img1 x y) as [[[r1 g1] b1] a1].
  destruct (image.At img2 x y) as [[[r2 g2] b2] a2].
  rewrite (getBitsFromRGB_pixel r1 g1 b1 a1), (getBitsFromRGB_pixel r2 g2 b2 a2).
  rewrite H. apply IH.
Qed.

Lemma loop_x_parities (growcap : nat -> nat -> nat) (img1 img2 : image.Image) :
  image.Bounds img1 = image.Bounds img2 ->
  (forall x y, pixel_bits (image.At img1 x y) = pixel_bits (image.At img2 x y)) ->
  forall n x s,
    getSecretString_loop_x growcap n img1 x s
    = getSecretString_loop_x growcap n img2 x s.
Proof.
  intros Hb H n. induction n as [|n IH]; intros x s; [reflexivity|].
  cbn [getSecretString_loop_x]. rewrite Hb, (loop_y_parities growcap img1 img2 H).
  apply IH.
Qed.

(** A stream of zeros regroups to NUL characters, among which the
    sentinel does not occur. *)
Lemma text_of_zeros_upto (n : nat) :
  forall m, (m < 8 * n)%nat -> Forall (eq x00) (text_of_bits (repeat 0 m)).
Proof.
  induction n as [|n IH]; intros m Hm; [lia|].
  do 8 (destruct m as [|m]; [constructor|]).
  cbn [repeat text_of_bits]. apply Forall_app. split.
  - repeat constructor.
  - apply IH. lia.
Qed.

Lemma text_of_zeros (m : nat) : Forall (eq x00) (text_of_bits (repeat 0 m)).
Proof. apply (text_of_zeros_upto (S m)). lia. Qed.

Lemma no_sentinel_in_nuls (t : gostring) :
  Forall (eq x00) t -> strings_Index t stopStegConst = None.
Proof.
  induction 1 as [|c t Hc Ht IH]; [reflexivity|].
  subst c. cbn [strings_Index]. rewrite IH. reflexivity.
Qed.

Lemma flat_map_zeros (A : Type) (f : A -> list Z) (l : list A) :
  (forall a, f a = [0; 0; 0]) ->
  flat_map f l = repeat 0 (3 * length l).
Proof.
  intros H. induction l as [|a l IH]; [reflexivity|].
  cbn [flat_map length]. rewrite H, IH.
  replace (3 * S (length l))%nat with (3 + 3 * length l)%nat by lia.
  reflexivity.
Qed.

End ExtractMore.

(** X14.  A secret returned by [DoStegExtract] never contains the
    sentinel, and the receiver is left as it was. *)
Theorem X14_extracted_secret_has_no_sentinel :
  forall (growcap : nat -> nat -> nat) (s s' : StegImage) (secret : gostring),
    DoStegExtract growcap s = (s', Ok secret) ->
    s' = s /\ forall j, ~ occurs_at stopStegConst secret j.
Proof.
  intros growcap s s' secret H.
  rewrite DoStegExtract_getSecretString in H.
  destruct (getSecretString_Ok growcap s s' secret H)
    as (Hs & text & k & [Ho Hf] & ->).
  split; [exact Hs|]. intros j Hj.
  apply occurs_at_firstn in Hj. destruct Hj as [Hj Hk].
  apply (Hf j); [|exact Hj].
  change (length stopStegConst) with 13%nat in Hk. lia.
Qed.

Lemma X14_extracted_secret_has_no_sentinel_witness :
  let s := reload (fst (DoStegEmbed (str "Karl")
                          (LoadImage (solid (rect 0 0 1 71) opaque_black)))) in
  s = s /\ forall j, ~ occurs_at stopStegConst (str "Karl") j.
Proof.
  intros s.
  apply (X14_extracted_secret_has_no_sentinel exact_grow s s (str "Karl")).
  vm_compute. reflexivity.
Defined.

(** X15.  Images with the same bounds whose pixels agree on the parities
    of red, green and blue give the same result of [DoStegExtract]: alpha
    and the bits above the lowest play no part. *)
Theorem X15_extraction_reads_parities_only :
  forall (growcap : nat -> nat -> nat) (img1 img2 : image.Image),
    image.Bounds img1 = image.Bounds img2 ->
    (forall x y,
        pixel_bits (image.At img1 x y) = pixel_bits (image.At img2 x y)) ->
    snd (DoStegExtract growcap (LoadImage img1))
    = snd (DoStegExtract growcap (LoadImage img2)).
Proof.
  intros growcap img1 img2 Hb H.
  rewrite !DoStegExtract_getSecretString.
  unfold getSecretString, LoadImage. cbn [imgLoaded].
  assert (E : scanBits growcap img1 = scanBits growcap img2).
  { unfold scanBits. rewrite Hb.
    rewrite (loop_x_parities growcap img1 img2 Hb H). reflexivity. }
  rewrite E.
  destruct (scanBits growcap img2) as [bitsOut|e|p]; try reflexivity.
  destruct (bitsToString bitsOut) as [tmp|e|p]; try reflexivity.
  destruct (strings_Contains tmp stopStegConst); reflexivity.
Qed.

Lemma X15_extraction_reads_parities_only_witness :
  snd (DoStegExtract exact_grow
         (LoadImage (solid (rect 0 0 1 3) opaque_black)))
  = snd (DoStegExtract exact_grow
           (LoadImage (solid (rect 0 0 1 3) (0x0202, 0x0404, 0xfefe, 0)))).
Proof.
  apply (X15_extraction_reads_parities_only exact_grow
           (solid (rect 0 0 1 3) opaque_black)
           (solid (rect 0 0 1 3) (0x0202, 0x0404, 0xfefe, 0))).
  - reflexivity.
  - intros x y. cbn [solid image.At].
    destruct (image.In x y (rect 0 0 1 3)); reflexivity.
Defined.

(** X16.  An image all of whose red, green and blue values are even, such
    as an all-black one, never yields a secret: [DoStegExtract] fails with
    "error finding embedded secret string", unless it panics on the
    capacity argument of [make] or on the last slice of the regrouping. *)
Theorem X16_even_image_has_no_secret :
  forall (growcap : nat -> nat -> nat) (img : image.Image),
    (forall c n : nat, (n <= growcap c n)%nat) ->
    (forall x y, pixel_bits (image.At img x y) = [0; 0; 0]) ->
    let r := snd (DoStegExtract growcap (LoadImage img)) in
    r = Err SentinelNotFound \/ r = Panic SliceBounds \/ r = Panic MakeSliceCap.
Proof.
  intros growcap img Hg Hev r. unfold r.
  rewrite DoStegExtract_getSecretString.
  unfold getSecretString, LoadImage. cbn [imgLoaded].
  destruct (scanBits growcap img) as [bitsOut|e|p] eqn:Hs.
  - pose proof (scanBits_cap growcap img bitsOut Hg Hs) as Hcap.
    pose proof (scanBits_Ok_elts growcap img bitsOut Hs) as He.
    unfold scan_bits in He.
    rewrite (flat_map_zeros _ _ _ (fun p => Hev (fst p) (snd p))) in He.
    rewrite (bitsToString_cases bitsOut Hcap).
    destruct (Nat.leb_spec (8 * ((len bitsOut + 7) / 8)) (cap bitsOut))
      as [Hl|Hl]; [|right; left; reflexivity].
    left.
    assert (Hb : backing bitsOut = repeat 0 (cap bitsOut)).
    { unfold backing. rewrite He, <- repeat_app. f_equal.
      unfold len in *. rewrite He, repeat_length in *. lia. }
    rewrite Hb, firstn_repeat_le by exact Hl.
    unfold strings_Contains.
    rewrite (no_sentinel_in_nuls _ (text_of_zeros _)). reflexivity.
  - unfold scanBits in Hs. destruct (_ <? 0); discriminate.
  - unfold scanBits in Hs. destruct (_ <? 0); [|discriminate].
    inversion Hs. right; right; reflexivity.
Qed.

Lemma X16_even_image_has_no_secret_witness :
  let r := snd (DoStegExtract double_grow
                  (LoadImage (solid (rect 0 0 3 5) opaque_black))) in
  r = Err SentinelNotFound \/ r = Panic SliceBounds \/ r = Panic MakeSliceCap.
Proof.
  apply (X16_even_image_has_no_secret double_grow
           (solid (rect 0 0 3 5) opaque_black)).
  - intros c n. unfold double_grow. apply Nat.le_max_l.
  - intros x y. cbn [solid image.At].
    destruct (image.In x y (rect 0 0 3 5)); reflexivity.
Defined.

(* ================================================================== *)
(** * Further properties: embedding, then extracting                  *)
(* ================================================================== *)

Section RoundTripMore.


End RoundTripMore.



(* ================================================================== *)
(** * Further properties: the scan of an 8-bit buffer                 *)
(* ================================================================== *)

Section ScanMore.

Lemma flat_map_grid (B : Type) (f : Z * Z -> list B) (xs ys : list Z) :
  flat_map f (grid xs ys)
  = flat_map (fun x => flat_map (fun y => f (x, y)) ys) xs.
Proof.
  induction xs as [|x xs IH]; [reflexivity|].
  rewrite grid_cons, flat_map_app, IH. cbn [flat_map].
  rewrite flat_map_map. reflexivity.
Qed.

Lemma At_below_maxY (m : image.RGBA) (x : Z) :
  image.RGBA_At m x (maxY (image.Rect m)) = color.zero.
Proof.
  unfold image.RGBA_At, image.In, maxY.
  rewrite Z.ltb_irrefl, andb_false_r. reflexivity.
Qed.

Lemma At_right_of_maxX (m : image.RGBA) (y : Z) :
  image.RGBA_At m (maxX (image.Rect m)) y = color.zero.
Proof.
  unfold image.RGBA_At, image.In, maxX.
  rewrite Z.ltb_irrefl, andb_false_r. reflexivity.
Qed.

Lemma widen_high_byte (c : byte) : to_uint8 (Z.shiftr (color.widen c) 8) = c.
Proof. destruct c; reflexivity. Qed.

End ScanMore.

(** X18.  What the scan reads from an 8-bit buffer, such as an embedded
    one: for each column of the buffer the low bits of its pixels, top to
    bottom, followed by three zero bits for the pixel at [y = Max.Y] that
    the buffer does not have, and after the last column one more column
    of zero bits.  So the bits of the second column start 3 * height + 3
    bits into the scan, not 3 * height. *)
Theorem X18_scan_inserts_zero_bits :
  forall (growcap : nat -> nat -> nat) (m : image.RGBA),
    let b := image.Rect m in
    minX b <= maxX b -> minY b <= maxY b ->
    0 <= to_int (maxX b * maxY b) ->
    let xs := zrange (minX b) (Z.to_nat (maxX b - minX b)) in
    let ys := zrange (minY b) (Z.to_nat (maxY b - minY b)) in
    exists c,
      scanBits growcap (image.RGBA_Image m)
      = Ok (mkSlice
              (flat_map (fun x =>
                           flat_map (fun y => color_bits (image.RGBA_At m x y)) ys
                           ++ [0; 0; 0]) xs
               ++ repeat 0 (3 * (length ys + 1)))
              c).
Proof.
  intros growcap m b Hx Hy Hc xs ys.
  destruct (scanBits_elts growcap (image.RGBA_Image m) Hc) as [c E].
  exists c. rewrite E. f_equal. f_equal.
  unfold scan_bits. cbn [image.RGBA_Image image.Bounds image.At]. fold b.
  rewrite (scan_coords_inclusive b Hx Hy). fold xs ys.
  rewrite (flat_map_grid _
             (fun p => pixel_bits (color.RGBA_RGBA
                          (image.RGBA_At m (fst p) (snd p))))).
  cbn [fst snd]. rewrite flat_map_app. f_equal.
  - apply flat_map_ext_in. intros x _.
    rewrite flat_map_app. cbn [flat_map]. unfold b.
    rewrite At_below_maxY. reflexivity.
  - cbn [flat_map]. rewrite app_nil_r.
    rewrite (flat_map_zeros _ _ (ys ++ [maxY b])).
    + rewrite length_app. reflexivity.
    + intros y. unfold b. rewrite At_right_of_maxX. reflexivity.
Qed.

Lemma X18_scan_inserts_zero_bits_witness :
  exists c,
    scanBits exact_grow
      (image.RGBA_Image
         (image.draw_Over_new (solid (rect 0 0 1 2) (0xffff, 0, 0xffff, 0xffff))))
    = Ok (mkSlice [1; 0; 1; 1; 0; 1; 0; 0; 0; 0; 0; 0; 0; 0; 0; 0; 0; 0] c).
Proof.
  destruct (X18_scan_inserts_zero_bits exact_grow
              (image.draw_Over_new
                 (solid (rect 0 0 1 2) (0xffff, 0, 0xffff, 0xffff))))
    as [c E].
  - vm_compute. discriminate.
  - vm_compute. discriminate.
  - vm_compute. discriminate.
  - exists c. exact E.
Defined.

(** X19.  Every [DoStegEmbed] starts again from the loaded image: on a
    receiver that already went through a [DoStegEmbed], with whatever
    secret and outcome, it returns the receiver and the result it returns
    on the receiver as it was before.  Payloads do not accumulate. *)
Theorem X19_DoStegEmbed_starts_from_loaded_image :
  forall (s : StegImage) (secret1 secret2 : gostring),
    DoStegEmbed secret2 (fst (DoStegEmbed secret1 s)) = DoStegEmbed secret2 s.
Proof.
  intros [loaded type bits mutable] secret1 secret2.
  assert (G : forall type' bits' mutable' img secret,
             DoStegEmbed secret (mkStegImage (Some img) type' bits' mutable')
             = embedSecret
                 (mkStegImage (Some img) type'
                    (map digit_bit (stringToBinary (secret ++ stopStegConst)))
                    (Some (image.draw_Over_new img)))).
  { intros type' bits' mutable' img secret.
    unfold DoStegEmbed, bind, createMutableImage. cbn [imgLoaded].
    rewrite loadSecret_total. reflexivity. }
  destruct loaded as [img|]; [|reflexivity].
  rewrite (G type bits mutable img secret1), embedSecret_cases.
  destruct (capacity_bound _ <? _); cbn [fst]; unfold set_newImg;
    cbn [imgLoaded imgType secretBits newImg]; rewrite !G; reflexivity.
Qed.

(** X20.  [createMutableImage] on an image that is itself an 8-bit buffer
    makes a copy with the same bounds and the same colour at every
    coordinate, so writing a buffer out and loading it again loses
    nothing before the next embedding. *)
Theorem X20_mutable_copy_of_8bit_buffer :
  forall m0 : image.RGBA,
  exists m,
    createMutableImage (LoadImage (image.RGBA_Image m0))
    = (set_newImg (LoadImage (image.RGBA_Image m0)) m, Ok tt)
    /\ image.Rect m = image.Rect m0
    /\ forall x y, image.RGBA_At m x y = image.RGBA_At m0 x y.
Proof.
  intros m0. eexists. split; [reflexivity|]. split; [reflexivity|].
  intros x y. unfold image.RGBA_At at 1.
  cbn [image.draw_Over_new image.RGBA_Image image.Rect image.Pix
       image.Bounds image.At].
  destruct (image.In x y (image.Rect m0)) eqn:E.
  - unfold color.RGBA_RGBA. rewrite !widen_high_byte.
    destruct (image.RGBA_At m0 x y); reflexivity.
  - unfold image.RGBA_At. rewrite E. reflexivity.
Qed.
